(** * toqito: SDP assembly for Bell-inequality bounds and PSD-rank search

    A shallow embedding of
      - [toqito/matrix_props/positive_semidefinite_rank.py]
      - [toqito/state_opt/bell_inequality_max.py]

    Conventions of the model.
      - Array entries are exact rationals ([Q], compared with Leibniz
        equality: no theorem below uses an algebraic law of the scalars, so
        every equation is an equation between the same sequence of
        arithmetic operations). The values of the objective operator are
        stated for inputs on which the arithmetic of numpy is exact
        ([exact_bell_input]); float literals are the rationals they denote
        ([float_1e_6]).
      - A numpy array is a shape together with its rows.
      - A cvxpy expression is a term ([expr]); a cvxpy problem is an
        objective and a list of constraints.
      - The solver is outside the program: a computation is a tree whose
        nodes are the calls of [prob.solve], and [run] answers them with a
        given solver, recording the calls in order.
      - [toqito.perms.permutation_operator] is a parameter of the Bell
        program; [swap] and [partial_transpose], applied to cvxpy
        expressions, are constructors of [expr]. *)

From Stdlib Require Import QArith.
From stdpp Require Import base numbers list strings sorting.

Local Open Scope nat_scope.

(** ** Scalars *)

Definition Qltb (x y : Q) : bool := negb (Qle_bool y x).

(** The value of the float literal [1e-6]: the binary64 number
    [4722366482869645 · 2^-72], just below [1/10^6]. The finite floats are
    rationals, and comparing them as rationals is comparing them as floats. *)
Definition float_1e_6 : Q := 4722366482869645 # 4722366482869645213696.

(** The value cvxpy leaves in [prob.value]: a float, infinite for problems
    reported infeasible or unbounded. *)
Inductive objval : Type :=
  | Fin (q : Q)
  | PInf
  | NInf.

Definition objval_ltb (v : objval) (t : Q) : bool :=
  match v with
  | Fin q => Qltb q t
  | NInf => true
  | PInf => false
  end.

(** ** numpy arrays *)

Record ndarray : Type := mk_ndarray {
  nrows : nat;
  ncols : nat;
  rows : list (list Q)
}.

Definition shape (A : ndarray) : nat * nat := (nrows A, ncols A).

(** The rows agree with the shape. *)
Definition well_shaped (A : ndarray) : Prop :=
  length (rows A) = nrows A ∧ Forall (λ r, length r = ncols A) (rows A).

(** [A[i, j]], for an index inside the shape. *)
Definition get (A : ndarray) (i j : nat) : Q :=
  nth j (nth i (rows A) []) 0%Q.

Definition tabulate (r c : nat) (f : nat → nat → Q) : ndarray :=
  {| nrows := r; ncols := c;
     rows := map (λ i, map (λ j, f i j) (seq 0 c)) (seq 0 r) |}.

(** [range(lo, hi)] on naturals and on integers. *)
Definition range (lo hi : nat) : list nat := seq lo (hi - lo).
Definition rangeZ (lo hi : Z) : list Z := seqZ lo (hi - lo).

(** [np.all(mat >= 0)] *)
Definition np_all_ge0 (mat : ndarray) : bool :=
  forallb (forallb (Qle_bool 0)) (rows mat).

(** Modelled from the spec: [toqito.matrix_props.is_square], the
    "square-shape check" of the matrix-property collaborator, on a
    two-dimensional array. *)
Definition is_square (mat : ndarray) : bool := nrows mat =? ncols mat.

(** ** cvxpy expressions, constraints and problems *)

Inductive expr : Type :=
  | EVariable (r c : nat) (symmetric : bool)   (* cp.Variable((r, c), symmetric=..) *)
  | ENum (q : Q)                               (* a numpy scalar *)
  | EInt (k : Z)                               (* a Python int *)
  | EArray (A : ndarray)                       (* a numpy array *)
  | EIndex (e : expr) (i j : nat)              (* e[i, j] *)
  | EBmat2 (e11 e12 e21 e22 : expr)            (* cp.bmat([[e11, e12], [e21, e22]]) *)
  | ENorm (e : expr) (p : string)              (* cp.norm(e, p) *)
  | ESum (e : expr)                            (* cp.sum(e) *)
  | ESquare (e : expr)                         (* cp.square(e) *)
  | ESub (e1 e2 : expr)                        (* e1 - e2 *)
  | ETrace (e : expr)                          (* cp.trace(e) *)
  | EMatMul (e1 e2 : expr)                     (* e1 @ e2 *)
  | EKron (e1 e2 : expr)                       (* cp.kron(e1, e2) *)
  | ESwap (e : expr) (sys dim : list nat)      (* toqito.perms.swap(e, sys, dim) *)
  | EPartialTranspose (e : expr) (sys dim : list nat).
                                     (* toqito.channels.partial_transpose(e, sys, dim) *)

Inductive constraint : Type :=
  | CEq (e1 e2 : expr)     (* e1 == e2 *)
  | CLe (e1 e2 : expr)     (* e1 <= e2 *)
  | CPsd (e : expr).       (* e >> 0 *)

Inductive objective : Type :=
  | Minimize (e : expr)
  | Maximize (e : expr).

Record problem : Type := mk_problem {
  prob_objective : objective;
  prob_constraints : list constraint
}.

(** ** The solver boundary *)

(** One call of [prob.solve(solver=.., eps=.., verbose=..)]. *)
Record solve_call : Type := mk_call {
  call_problem : problem;
  call_solver : string;
  call_eps : option Q;
  call_verbose : option bool
}.

(** What the program reads back: [prob.status] and [prob.value]. *)
Record solution : Type := mk_solution {
  status : string;
  value : objval
}.

Definition OPTIMAL : string := "optimal".

Inductive exn : Type :=
  | ValueError (msg : string)
  | IndexError.

(** A computation returns, raises, or calls the solver and goes on with
    what the solver reports. *)
Inductive prog (A : Type) : Type :=
  | Ret (a : A)
  | Raise (e : exn)
  | Solve (c : solve_call) (k : solution → prog A).
Arguments Ret {A} a.
Arguments Raise {A} e.
Arguments Solve {A} c k.

Fixpoint bind {A B} (p : prog A) (f : A → prog B) : prog B :=
  match p with
  | Ret a => f a
  | Raise e => Raise e
  | Solve c k => Solve c (λ s, bind (k s) f)
  end.

Notation "'do' x <- p ; q" := (bind p (λ x, q))
  (at level 10, x name, p at level 100, q at level 200, only parsing).

Definition solver : Type := solve_call → solution.

(** [run slv p]: the result of [p] and the solver calls it made, in order,
    when [slv] answers the calls. *)
Fixpoint run {A} (slv : solver) (p : prog A) : (exn + A) * list solve_call :=
  match p with
  | Ret a => (inr a, [])
  | Raise e => (inl e, [])
  | Solve c k => let '(r, t) := run slv (k (slv c)) in (r, c :: t)
  end.

(** A [for] loop that threads one value through its iterations. *)
Fixpoint for_each {I S} (l : list I) (body : I → S → prog S) (s : S) : prog S :=
  match l with
  | [] => Ret s
  | i :: l' => do s' <- body i s ; for_each l' body s'
  end.

(** ** positive_semidefinite_rank.py *)

Definition x_var_of (mat : ndarray) : expr := EVariable (nrows mat) (ncols mat) false.

(** [x_var[i, j]]: cvxpy checks the index against the variable's shape. *)
Definition var_index (m n : nat) (x : expr) (i j : nat) : prog expr :=
  if (i <? m) && (j <? n) then Ret (EIndex x i j) else Raise IndexError.

Definition psd_block (mat : ndarray) (i j : nat) : constraint :=
  CPsd (EBmat2 (EIndex (x_var_of mat) i j) (ENum (get mat i j))
               (ENum (get mat i j)) (EIndex (x_var_of mat) j i)).

Definition psd_block_constraints (mat : ndarray) : prog (list constraint) :=
  let m := nrows mat in
  let n := ncols mat in
  let x_var := x_var_of mat in
  for_each (range 0 m) (λ i,
    for_each (range 0 n) (λ j constraints,
      do xij <- var_index m n x_var i j ;
      do xji <- var_index m n x_var j i ;
      Ret (constraints ++
           [CPsd (EBmat2 xij (ENum (get mat i j)) (ENum (get mat i j)) xji)])))
    [].

Definition nuc_bound (mat : ndarray) (k : Z) : constraint :=
  CLe (ENorm (x_var_of mat) "nuc") (EInt k).

Definition psd_objective (mat : ndarray) : objective :=
  Minimize (ESum (ESquare (ESub (x_var_of mat) (EArray mat)))).

Definition psd_call (p : problem) : solve_call :=
  {| call_problem := p; call_solver := "SCS";
     call_eps := Some (1 # 100000000)%Q; call_verbose := None |}.

Definition _check_psd_rank (mat : ndarray) (k : Z) : prog bool :=
  do constraints <- psd_block_constraints mat ;
  let constraints := constraints ++ [nuc_bound mat k] in
  let obj := psd_objective mat in
  let prob := {| prob_objective := obj; prob_constraints := constraints |} in
  Solve (psd_call prob) (λ s,
    Ret (bool_decide (status s = OPTIMAL) && objval_ltb (value s) float_1e_6)).

Fixpoint rank_search (mat : ndarray) (ks : list Z) : prog (option Z) :=
  match ks with
  | [] => Ret None
  | k :: ks' =>
      do ok <- _check_psd_rank mat k ;
      if ok then Ret (Some k) else rank_search mat ks'
  end.

Definition positive_semidefinite_rank (mat : ndarray) (max_rank : Z) : prog (option Z) :=
  if negb (np_all_ge0 mat) then Raise (ValueError "Matrix must be nonnegative.")
  else if negb (is_square mat) then Raise (ValueError "Matrix must be square.")
  else rank_search mat (rangeZ 1 (max_rank + 1)).

(** The default of the keyword argument [max_rank]. *)
Definition default_max_rank : Z := 10.

(** ** numpy operations used by [bell_inequality_max.py] *)

Definition np_eye (n : nat) : ndarray :=
  tabulate n n (λ i j, if i =? j then 1%Q else 0%Q).

Definition np_zeros (r c : nat) : ndarray := tabulate r c (λ _ _, 0%Q).

(** [np.kron(A, B)]: the entry [(i * rB + k, j * cB + l)] is [A[i,j] * B[k,l]]. *)
Definition np_kron (A B : ndarray) : ndarray :=
  tabulate (nrows A * nrows B) (ncols A * ncols B)
    (λ i j, (get A (i / nrows B) (j / ncols B) * get B (i mod nrows B) (j mod ncols B))%Q).

(** [A.T] *)
Definition np_transpose (A : ndarray) : ndarray :=
  tabulate (ncols A) (nrows A) (λ i j, get A j i).

(** [c * A] and [A / c] for a scalar [c]. *)
Definition np_scale (c : Q) (A : ndarray) : ndarray :=
  tabulate (nrows A) (ncols A) (λ i j, (c * get A i j)%Q).

Definition np_div (A : ndarray) (c : Q) : ndarray :=
  tabulate (nrows A) (ncols A) (λ i j, (get A i j / c)%Q).

(** Entrywise sum of two arrays of one shape. *)
Definition mat_add (A B : ndarray) : ndarray :=
  tabulate (nrows A) (ncols A) (λ i j, (get A i j + get B i j)%Q).

Definition broadcast_error : exn :=
  ValueError "operands could not be broadcast together".

(** [A + B] and [A += B]: numpy adds arrays of one shape entrywise and
    refuses shapes it cannot align (the broadcasting of a smaller array
    does not arise in this program and is not modelled). *)
Definition np_add (A B : ndarray) : prog ndarray :=
  if bool_decide (shape A = shape B) then Ret (mat_add A B) else Raise broadcast_error.

(** [v.reshape(-1, 1)] on a one-dimensional array. *)
Definition reshape_col (v : list Q) : ndarray :=
  {| nrows := length v; ncols := 1; rows := map (λ q, [q]) v |}.

(** [A[i, j]] with numpy's bounds check (the indices are never negative
    here). *)
Definition getitem (A : ndarray) (i j : nat) : prog Q :=
  if (i <? nrows A) && (j <? ncols A) then Ret (get A i j) else Raise IndexError.

(** [l[i] = x] on a Python list. *)
Definition list_setitem {A} (l : list A) (i : nat) (x : A) : prog (list A) :=
  if i <? length l then Ret (<[i:=x]> l) else Raise IndexError.

(** [itertools.combinations(l, r)]: the [r]-element selections of [l], by
    position, in lexicographic order. *)
Fixpoint combinations {A} (l : list A) (r : nat) : list (list A) :=
  match r with
  | 0 => [[]]
  | S r' =>
      match l with
      | [] => []
      | x :: l' => map (cons x) (combinations l' r') ++ combinations l' r
      end
  end.

(** ** bell_inequality_max.py *)

Definition two_outcomes_error : exn :=
  ValueError "This script is only capable of handling Bell inequalities with two outcomes.".

Definition aux_mat : ndarray :=
  {| nrows := 4; ncols := 4;
     rows := [[1; 0; 0; 0]; [0; 0; 0; 0]; [0; 0; 0; 0]; [0; 0; 0; 0]]%Q |}.

Definition bell_W (m : nat) : expr := EVariable (2 ^ (2 * m)) (2 ^ (2 * m)) true.

(** The argument [Z] of the objective, from [W] by the three reindexings.
    The subsystems named in the three calls are positions of the dimension
    lists exactly when [m >= 1]; the statements about the call of the solver
    are made for [m >= 1]. *)
Definition bell_Z (m : nat) : expr :=
  let W := bell_W m in
  let M := ESwap W [2; m + 1] (repeat 2 (2 * m)) in
  let X := ESwap (EKron M (EArray aux_mat)) [m + 1; 2 * m + 1] (repeat 2 (2 * m + 2)) in
  ESwap X [m + 2; 2 * m + 1] (repeat 2 (2 * m + 2)).

Definition ppt_constraint (m : nat) (ppt_partition_updated : list nat) : constraint :=
  CPsd (EPartialTranspose (bell_W m) ppt_partition_updated
          (4 :: repeat 2 (2 * (m - 1)))).

(** The loop that appends the PPT constraints. *)
Definition bell_constraints (m : nat) : list constraint :=
  let W := bell_W m in
  let constraints := [CEq (ETrace W) (EInt 1); CPsd W] in
  fold_left (λ constraints sz,
    fold_left (λ constraints ppt_partition,
        let ppt_partition_updated := map (λ x, x - 1) ppt_partition in
        constraints ++ [ppt_constraint m ppt_partition_updated])
      (combinations (range 1 (2 * m - 1)) sz) constraints)
    (range 1 (m + 1)) constraints.

Definition bell_call (p : problem) : solve_call :=
  {| call_problem := p; call_solver := "MOSEK";
     call_eps := None; call_verbose := Some false |}.

Section BellProgram.

(** [toqito.perms.permutation_operator(dim, perm, inv_perm, is_sparse)]
    is taken as a parameter. *)
Variable permutation_operator : list nat → list nat → bool → bool → ndarray.

Definition MN_matrix (m a x : nat) : prog ndarray :=
  let perm := range 0 (m + 1) in
  do perm <- list_setitem perm 0 x ;
  do perm <- list_setitem perm x 0 ;
  np_add (np_scale (inject_Z (Z.of_nat a)) (np_eye (2 ^ (m + 1))))
         (np_scale (inject_Z ((-1) ^ Z.of_nat a))
            (permutation_operator (repeat 2 (m + 1)) perm false true)).

(** The coefficient [b_coeff] of one term of the objective. *)
Definition bell_coefficient (joint_coe a_coe b_coe a_val b_val : ndarray)
    (a b x y : nat) : prog Q :=
  do j <- getitem joint_coe (x - 1) (y - 1) ;
  do av <- getitem a_val a 0 ;
  do bv <- getitem b_val b 0 ;
  let b_coeff := (j * av * bv)%Q in
  do b_coeff <-
    (if y =? 1 then
       do ac <- getitem a_coe (x - 1) 0 ;
       do av <- getitem a_val a 0 ;
       Ret (b_coeff + ac * av)%Q
     else Ret b_coeff) ;
  if x =? 1 then
    do bc <- getitem b_coe (y - 1) 0 ;
    do bv <- getitem b_val b 0 ;
    Ret (b_coeff + bc * bv)%Q
  else Ret b_coeff.

(** The nested loops that accumulate [obj_mat]. *)
Definition bell_objective_loop (joint_coe a_coe b_coe a_val b_val : ndarray)
    (m : nat) : prog ndarray :=
  let tot_dim := 2 ^ (2 * m + 2) in
  for_each (range 0 2) (λ a,
    for_each (range 0 2) (λ b,
      for_each (range 1 (m + 1)) (λ x,
        for_each (range 1 (m + 1)) (λ y obj_mat,
          do b_coeff <- bell_coefficient joint_coe a_coe b_coe a_val b_val a b x y ;
          do Ma <- MN_matrix m a x ;
          do Nb <- MN_matrix m b y ;
          np_add obj_mat (np_scale b_coeff (np_kron Ma Nb))))))
    (np_zeros tot_dim tot_dim).

(** [(obj_mat + obj_mat.T) / 2] *)
Definition symmetrize (obj_mat : ndarray) : prog ndarray :=
  do s <- np_add obj_mat (np_transpose obj_mat) ;
  Ret (np_div s 2).

Definition bell_problem (m : nat) (obj_mat : ndarray) : problem :=
  {| prob_objective := Maximize (ETrace (EMatMul (bell_Z m) (EArray obj_mat)));
     prob_constraints := bell_constraints m |}.

Definition bell_inequality_max (joint_coe : ndarray) (a_coe b_coe a_val b_val : list Q)
    : prog objval :=
  let m := nrows joint_coe in
  let oa := length a_val in
  let ob := length b_val in
  let a_val := reshape_col a_val in
  let b_val := reshape_col b_val in
  let a_coe := reshape_col a_coe in
  let b_coe := reshape_col b_coe in
  if negb (oa =? 2) || negb (ob =? 2) then Raise two_outcomes_error
  else
    do obj_mat <- bell_objective_loop joint_coe a_coe b_coe a_val b_val m ;
    do obj_mat <- symmetrize obj_mat ;
    let prob := bell_problem m obj_mat in
    Solve (bell_call prob) (λ s, let bmax := value s in Ret bmax).

End BellProgram.

(** ** Reference descriptions of the PSD-rank feasibility problem *)

(** One block constraint per entry, row by row, and the problem they form
    with the nuclear-norm bound. *)
Definition psd_blocks (mat : ndarray) : list constraint :=
  flat_map (λ i, map (psd_block mat i) (seq 0 (ncols mat))) (seq 0 (nrows mat)).

Definition psd_problem (mat : ndarray) (k : Z) : problem :=
  {| prob_objective := psd_objective mat;
     prob_constraints := psd_blocks mat ++ [nuc_bound mat k] |}.

(** What the check answers when [slv] is the solver. *)
Definition feasible_at (slv : solver) (mat : ndarray) (k : Z) : bool :=
  let s := slv (psd_call (psd_problem mat k)) in
  bool_decide (status s = OPTIMAL) && objval_ltb (value s) float_1e_6.

(** [v < t] on the values of [prob.value]. *)
Definition objval_lt (v : objval) (t : Q) : Prop :=
  match v with
  | Fin q => (q < t)%Q
  | NInf => True
  | PInf => False
  end.

(** ** Reference descriptions of the Bell operator and of its SDP *)

(** The permutation of [n] positions that exchanges the positions [i] and
    [j] and fixes the others. *)
Definition exchange (n i j : nat) : list nat :=
  map (λ p, if p =? i then j else if p =? j then i else p) (seq 0 n).

(** [np.prod(dims)]: the dimension of the composite system. *)
Definition dim_prod (dims : list nat) : nat := foldr Nat.mul 1 dims.


(** [v[i]] on a one-dimensional array, for an index inside it. *)
Definition vget (v : list Q) (i : nat) : Q := nth i v 0%Q.

(** The index tuples [(a, b, x, y)] of the sum, in the order of the loops. *)
Definition bell_terms (m : nat) : list (nat * nat * nat * nat) :=
  flat_map (λ a,
    flat_map (λ b,
      flat_map (λ x, map (λ y, (a, b, x, y)) (seq 1 m)) (seq 1 m)) [0; 1]) [0; 1].

(** The coefficient of the term [(a, b, x, y)]: the joint coefficient, plus
    the marginal coefficient of Alice only when [y = 1], plus that of Bob
    only when [x = 1], each weighted by the outcome values. *)
Definition bell_coeff (joint_coe : ndarray) (a_coe b_coe a_val b_val : list Q)
    (a b x y : nat) : Q :=
  let joint := (get joint_coe (x - 1) (y - 1) * vget a_val a * vget b_val b)%Q in
  let with_a := if y =? 1 then (joint + vget a_coe (x - 1) * vget a_val a)%Q else joint in
  if x =? 1 then (with_a + vget b_coe (y - 1) * vget b_val b)%Q else with_a.

(** [(M + Mᵗ) / 2] *)
Definition symmetric_part (M : ndarray) : ndarray :=
  np_div (mat_add M (np_transpose M)) 2.

Section BellReference.

Variable permutation_operator : list nat → list nat → bool → bool → ndarray.

(** [a·I + (-1)^a·P], with [P] the permutation operator of the exchange of
    the positions [0] and [x] among [m + 1] subsystems of dimension 2. *)
Definition measurement_operator (m a x : nat) : ndarray :=
  mat_add
    (np_scale (inject_Z (Z.of_nat a)) (np_eye (2 ^ (m + 1))))
    (np_scale (inject_Z ((-1) ^ Z.of_nat a))
       (permutation_operator (repeat 2 (m + 1)) (exchange (m + 1) 0 x) false true)).

(** The sum over the index tuples, accumulated from the zero matrix in the
    order of [bell_terms]. *)
Definition bell_operator (joint_coe : ndarray) (a_coe b_coe a_val b_val : list Q)
    (m : nat) : ndarray :=
  fold_left (λ acc '(a, b, x, y),
      mat_add acc
        (np_scale (bell_coeff joint_coe a_coe b_coe a_val b_val a b x y)
           (np_kron (measurement_operator m a x) (measurement_operator m b y))))
    (bell_terms m)
    (np_zeros (2 ^ (2 * m + 2)) (2 ^ (2 * m + 2))).

End BellReference.

(** The PPT constraints: for each size [1, ..., m] in turn, one for each
    selection of that size from the index range [[0, 2m - 2)]. *)
Definition bell_ppt (m : nat) : list constraint :=
  flat_map (λ sz, map (ppt_constraint m) (combinations (seq 0 (2 * m - 2)) sz)) (seq 1 m).

(** A call of [bell_inequality_max] with [m] settings is valid when
    [joint_coe] is [m × m], the marginal coefficients have [m] entries and
    the outcome values have 2. *)
Definition valid_bell_input (joint_coe : ndarray) (a_coe b_coe a_val b_val : list Q) : Prop :=
  well_shaped joint_coe ∧ ncols joint_coe = nrows joint_coe
  ∧ length a_coe = nrows joint_coe ∧ length b_coe = nrows joint_coe
  ∧ length a_val = 2 ∧ length b_val = 2.

(** ** Instances used in the examples *)

(** The digits of the index [i] in the mixed radix [dims], most significant
    first: the basis labels of the subsystems. *)
Fixpoint digits (dims : list nat) (i : nat) : list nat :=
  match dims with
  | [] => []
  | d :: ds => (i / dim_prod ds) mod d :: digits ds (i mod dim_prod ds)
  end.

(** Modelled from the spec: [toqito.perms.permutation_operator], "the 0/1
    permutation matrix implementing relabel subsystem i as subsystem
    perm(i) on the full tensor space": the entry [(i, j)] is 1 when the
    labels of [i] are those of [j] reordered by [perm]. It instantiates the
    parameter of [MN_matrix] in the examples. *)
Definition permutation_operator_model (dims perm : list nat) (inv_perm is_sparse : bool)
    : ndarray :=
  let n := dim_prod dims in
  tabulate n n (λ i j,
    if bool_decide (digits dims i = map (λ k, nth k (digits dims j) 0) perm)
    then 1%Q else 0%Q).

(** The nuclear-norm budget [k] of a feasibility problem. *)
Definition nuc_budget (c : solve_call) : option Z :=
  match last (prob_constraints (call_problem c)) with
  | Some (CLe _ (EInt k)) => Some k
  | _ => None
  end.

(** An example solver: optimal with value 0 once the budget reaches [n],
    infeasible below. *)
Definition threshold_solver (n : Z) : solver :=
  λ c, match nuc_budget c with
       | Some k => if (n <=? k)%Z then {| status := "optimal"; value := Fin 0 |}
                   else {| status := "infeasible"; value := PInf |}
       | None => {| status := "infeasible"; value := PInf |}
       end.

(** An example solver that reports every problem infeasible. *)
Definition infeasible_solver : solver :=
  λ _, {| status := "infeasible"; value := NInf |}.

(** The settings-1 example: one measurement per party. *)
Definition joint_coe_1 : ndarray := {| nrows := 1; ncols := 1; rows := [[1%Q]] |}.

(** ** Further reference descriptions *)

(** The number of [k]-element selections from [n] positions. *)
Fixpoint choose (n k : nat) : nat :=
  match n, k with
  | _, 0 => 1
  | 0, S _ => 0
  | S n', S k' => choose n' k' + choose n' k
  end.

(** The coefficient tables reach the [m] settings read from the rows of
    [joint_coe]. *)
Definition bell_tables_cover (joint_coe : ndarray) (a_coe b_coe : list Q) : Prop :=
  nrows joint_coe ≤ ncols joint_coe
  ∧ nrows joint_coe ≤ length a_coe
  ∧ nrows joint_coe ≤ length b_coe.

(** The problem of the one call of [bell_inequality_max]. *)
Definition bell_solver_call (permutation_operator : list nat → list nat → bool → bool → ndarray)
    (joint_coe : ndarray) (a_coe b_coe a_val b_val : list Q) : solve_call :=
  bell_call
    (bell_problem (nrows joint_coe)
       (symmetric_part
          (bell_operator permutation_operator joint_coe a_coe b_coe a_val b_val
             (nrows joint_coe)))).

(** Example inputs: a 2 × 3 matrix, and a 1 × 2 table of joint
    coefficients with longer marginal tables. *)
Definition mat_2x3 : ndarray :=
  {| nrows := 2; ncols := 3; rows := [[1; 0; 0]; [0; 1; 0]]%Q |}.

Definition mat_3x2 : ndarray :=
  {| nrows := 3; ncols := 2; rows := [[1; 0]; [0; 1]; [0; 0]]%Q |}.

Definition joint_coe_1x2 : ndarray :=
  {| nrows := 1; ncols := 2; rows := [[1; 5]]%Q |}.

(** Example inputs with two settings per party. *)
Definition joint_coe_2 : ndarray :=
  {| nrows := 2; ncols := 2; rows := [[1; 1]; [1; -1]]%Q |}.

Definition joint_coe_2x3 : ndarray :=
  {| nrows := 2; ncols := 3; rows := [[1; 1; 7]; [1; -1; 7]]%Q |}.

Definition a_coe_2 : list Q := [0; -1]%Q.
Definition b_coe_2 : list Q := [-1; 2]%Q.
Definition val_01 : list Q := [0; 1]%Q.

(** The entry of the sum at the row [i1 * 2^(m+1) + i2] and the column
    [j1 * 2^(m+1) + j2]: each term contributes its coefficient times the
    entry [(i1, j1)] of the first factor times the entry [(i2, j2)] of the
    second, in the order of [bell_terms]. *)
Definition bell_entry_sum
    (permutation_operator : list nat → list nat → bool → bool → ndarray)
    (joint_coe : ndarray) (a_coe b_coe a_val b_val : list Q) (m : nat)
    (i1 i2 j1 j2 : nat) : Q :=
  fold_left (λ acc '(a, b, x, y),
      (acc + bell_coeff joint_coe a_coe b_coe a_val b_val a b x y
             * (get (measurement_operator permutation_operator m a x) i1 j1
                * get (measurement_operator permutation_operator m b y) i2 j2))%Q)
    (bell_terms m) 0%Q.



(** A computation that does not start with a call of the solver. *)
Definition solve_free {A} (p : prog A) : Prop :=
  match p with
  | Solve _ _ => False
  | _ => True
  end.

(** * Properties *)

(** ** The computation monad *)

Lemma run_bind {A B} (slv : solver) (p : prog A) (f : A → prog B) :
  run slv (bind p f) =
  match run slv p with
  | (inr a, t) => let '(r, t') := run slv (f a) in (r, t ++ t')
  | (inl e, t) => (inl e, t)
  end.
Proof.
  induction p as [a|e|c k IH]; simpl.
  - by destruct (run slv (f a)).
  - done.
  - rewrite IH. destruct (run slv (k (slv c))) as [[e|a] t]; [done|].
    by destruct (run slv (f a)).
Qed.

Lemma for_each_app {I S} (l1 l2 : list I) (body : I → S → prog S) (s s' : S) :
  for_each l1 body s = Ret s' →
  for_each (l1 ++ l2) body s = for_each l2 body s'.
Proof.
  revert s. induction l1 as [|i l1 IH]; simpl; intros s H.
  - by inversion H.
  - destruct (body i s) as [s1| |]; simpl in *; try discriminate. by apply IH.
Qed.

(** ** Lists laid out row by row *)

Lemma lookup_flat_rows {A} (f : nat → nat → A) (n m p : nat) :
  flat_map (λ i, map (f i) (seq 0 n)) (seq 0 m) !! p =
  if decide (p < m * n) then Some (f (p / n) (p mod n)) else None.
Proof.
  induction m as [|m IH].
  - cbn [flat_map seq]. destruct (decide (p < 0 * n)); [lia|done].
  - rewrite seq_S, flat_map_app. simpl. rewrite app_nil_r.
    assert (Hlen : length (flat_map (λ i, map (f i) (seq 0 n)) (seq 0 m)) = m * n).
    { clear IH. induction m as [|m IHm]; [done|].
      rewrite seq_S, flat_map_app, length_app, IHm. simpl.
      rewrite app_nil_r, length_map, length_seq. lia. }
    destruct (decide (p < m * n)) as [Hp|Hp].
    + rewrite lookup_app_l by lia. rewrite IH.
      by case_decide; [|lia].
    + rewrite lookup_app_r by lia. rewrite Hlen.
      rewrite list_lookup_fmap.
      case_decide as Hq.
      * assert (Hn : n ≠ 0) by lia.
        assert (Hd : p / n = m).
        { symmetry. apply (Nat.div_unique p n m (p - m * n)); lia. }
        assert (Hm : p mod n = p - m * n).
        { symmetry. apply (Nat.mod_unique p n m (p - m * n)); lia. }
        rewrite Hd, Hm. rewrite lookup_seq_lt by lia. done.
      * rewrite lookup_seq_ge by lia. done.
Qed.

Lemma length_flat_rows {A} (f : nat → nat → A) (n m : nat) :
  length (flat_map (λ i, map (f i) (seq 0 n)) (seq 0 m)) = m * n.
Proof.
  induction m as [|m IHm]; [done|].
  rewrite seq_S, flat_map_app, length_app, IHm. simpl.
  rewrite app_nil_r, length_map, length_seq. lia.
Qed.

(** ** The feasibility problem of [_check_psd_rank] *)

Lemma psd_block_row (mat : ndarray) (i : nat) (js : list nat) (cs : list constraint) :
  nrows mat = ncols mat → i < nrows mat → Forall (λ j, j < ncols mat) js →
  for_each js (λ j constraints,
      do xij <- var_index (nrows mat) (ncols mat) (x_var_of mat) i j ;
      do xji <- var_index (nrows mat) (ncols mat) (x_var_of mat) j i ;
      Ret (constraints ++
           [CPsd (EBmat2 xij (ENum (get mat i j)) (ENum (get mat i j)) xji)])) cs
  = Ret (cs ++ map (psd_block mat i) js).
Proof.
  intros Hsq Hi Hjs. revert cs.
  induction Hjs as [|j js Hj _ IH]; intros cs; simpl.
  - by rewrite app_nil_r.
  - unfold var_index at 1 2.
    assert ((i <? nrows mat) = true) as -> by (apply Nat.ltb_lt; lia).
    assert ((j <? ncols mat) = true) as -> by (apply Nat.ltb_lt; lia).
    assert ((j <? nrows mat) = true) as -> by (apply Nat.ltb_lt; lia).
    assert ((i <? ncols mat) = true) as -> by (apply Nat.ltb_lt; lia).
    simpl. rewrite IH. by rewrite <- app_assoc.
Qed.

Lemma psd_block_constraints_square (mat : ndarray) :
  is_square mat = true →
  psd_block_constraints mat = Ret (psd_blocks mat).
Proof.
  intros Hsq%Nat.eqb_eq. unfold psd_block_constraints, psd_blocks, range.
  rewrite !Nat.sub_0_r.
  enough (H : ∀ (ixs : list nat) cs, Forall (λ i, i < nrows mat) ixs →
    for_each ixs (λ i, for_each (seq 0 (ncols mat)) (λ j constraints,
      do xij <- var_index (nrows mat) (ncols mat) (x_var_of mat) i j ;
      do xji <- var_index (nrows mat) (ncols mat) (x_var_of mat) j i ;
      Ret (constraints ++
           [CPsd (EBmat2 xij (ENum (get mat i j)) (ENum (get mat i j)) xji)]))) cs
    = Ret (cs ++ flat_map (λ i, map (psd_block mat i) (seq 0 (ncols mat))) ixs)).
  { apply (H _ []). apply Forall_forall. intros i Hi%elem_of_seq. lia. }
  intros ixs cs His. revert cs.
  induction His as [|i ixs Hi _ IH]; intros cs; simpl.
  - by rewrite app_nil_r.
  - rewrite psd_block_row; [|done|done|].
    + simpl. rewrite IH. by rewrite <- app_assoc.
    + apply Forall_forall. intros j Hj%elem_of_seq. lia.
Qed.

Lemma check_psd_rank_square (mat : ndarray) (k : Z) :
  is_square mat = true →
  _check_psd_rank mat k =
  Solve (psd_call (psd_problem mat k)) (λ s,
    Ret (bool_decide (status s = OPTIMAL) && objval_ltb (value s) float_1e_6)).
Proof.
  intros Hsq. unfold _check_psd_rank. by rewrite psd_block_constraints_square.
Qed.

Lemma objval_ltb_lt (v : objval) (t : Q) : objval_ltb v t = true ↔ objval_lt v t.
Proof.
  destruct v as [q| |]; simpl; [|done..].
  unfold Qltb. rewrite negb_true_iff, <- not_true_iff_false, Qle_bool_iff.
  split; [apply Qnot_le_lt | apply Qlt_not_le].
Qed.

Lemma run_check_psd_rank (slv : solver) (mat : ndarray) (k : Z) :
  is_square mat = true →
  run slv (_check_psd_rank mat k) =
  (inr (feasible_at slv mat k), [psd_call (psd_problem mat k)]).
Proof. intros Hsq. by rewrite check_psd_rank_square. Qed.

Lemma run_rank_search_none (slv : solver) (mat : ndarray) (ks : list Z) :
  is_square mat = true →
  Forall (λ k, feasible_at slv mat k = false) ks →
  run slv (rank_search mat ks) =
  (inr None, map (λ k, psd_call (psd_problem mat k)) ks).
Proof.
  intros Hsq Hks. induction Hks as [|k ks Hk _ IH]; [done|].
  cbn [rank_search]. rewrite run_bind, run_check_psd_rank by done.
  rewrite Hk, IH. done.
Qed.

Lemma run_rank_search_found (slv : solver) (mat : ndarray) (l1 l2 : list Z) (k : Z) :
  is_square mat = true →
  Forall (λ j, feasible_at slv mat j = false) l1 →
  feasible_at slv mat k = true →
  run slv (rank_search mat (l1 ++ k :: l2)) =
  (inr (Some k), map (λ k, psd_call (psd_problem mat k)) (l1 ++ [k])).
Proof.
  intros Hsq Hl1 Hk. induction Hl1 as [|j l1 Hj _ IH].
  - cbn [rank_search app]. rewrite run_bind, run_check_psd_rank by done.
    by rewrite Hk.
  - cbn [rank_search app]. rewrite run_bind, run_check_psd_rank by done.
    rewrite Hj. cbn [app] in IH. rewrite IH. done.
Qed.

Lemma run_rank_search_elem (slv : solver) (mat : ndarray) (ks : list Z) (k : Z) :
  (run slv (rank_search mat ks)).1 = inr (Some k) → k ∈ ks.
Proof.
  induction ks as [|j ks IH]; [done|].
  cbn [rank_search]. rewrite run_bind.
  destruct (run slv (_check_psd_rank mat j)) as [[e|[|]] t]; simpl.
  - done.
  - intros [= ->]. left.
  - destruct (run slv (rank_search mat ks)) as [r t'] eqn:E. simpl in *.
    intros ->. right. by apply IH.
Qed.

Lemma forallb_false {A} (f : A → bool) (l : list A) :
  forallb f l = false ↔ ∃ x, x ∈ l ∧ f x = false.
Proof.
  induction l as [|a l IH]; simpl.
  - split; [done|]. intros (x & Hx & _). by apply elem_of_nil in Hx.
  - rewrite andb_false_iff, IH. split.
    + intros [Ha|(x & Hx & Hf)]; [exists a | exists x]; split; auto; by constructor.
    + intros (x & Hx & Hf). apply elem_of_cons in Hx as [->|Hx]; eauto.
Qed.

Lemma np_all_ge0_false (mat : ndarray) :
  np_all_ge0 mat = false ↔ ∃ r q, r ∈ rows mat ∧ q ∈ r ∧ (q < 0)%Q.
Proof.
  unfold np_all_ge0. rewrite forallb_false. split.
  - intros (r & Hr & (q & Hq & Hf)%forallb_false). exists r, q.
    split; [done|]. split; [done|]. apply Qnot_le_lt.
    rewrite <- Qle_bool_iff. by rewrite Hf.
  - intros (r & q & Hr & Hq & Hlt). exists r. split; [done|].
    apply forallb_false. exists q. split; [done|].
    apply not_true_iff_false. rewrite Qle_bool_iff. by apply Qlt_not_le.
Qed.

(** ** Claims on [positive_semidefinite_rank] *)

(** C5. For a nonnegative square matrix [mat] and a candidate rank [k], the
    checker hands the solver one problem: its variable [X] has the shape of
    [mat]; its constraints are [nrows * ncols] blocks followed by the bound
    of the nuclear norm of [X] by [k]; the block
    [[X_ij, mat_ij], [mat_ij, X_ji]] >> 0 of the entry [(i, j)] stands at
    position [i * ncols + j] and nowhere else; the objective minimizes the
    sum of the squared entries of [X - mat]. *)
Theorem check_psd_rank_builds_sdp (mat : ndarray) (k : Z) :
  np_all_ge0 mat = true → is_square mat = true →
  let X := EVariable (nrows mat) (ncols mat) false in
  ∃ blocks κ,
    _check_psd_rank mat k =
      Solve (psd_call
               {| prob_objective := Minimize (ESum (ESquare (ESub X (EArray mat))));
                  prob_constraints := blocks ++ [CLe (ENorm X "nuc") (EInt k)] |}) κ
    ∧ length blocks = nrows mat * ncols mat
    ∧ ∀ i j p, i < nrows mat → j < ncols mat →
        (blocks !! p =
           Some (CPsd (EBmat2 (EIndex X i j) (ENum (get mat i j))
                              (ENum (get mat i j)) (EIndex X j i)))
         ↔ p = i * ncols mat + j).
Proof.
  intros _ Hsq X. eexists (psd_blocks mat), _. split; [|split].
  - by rewrite check_psd_rank_square.
  - apply length_flat_rows.
  - intros i j p Hi Hj. unfold psd_blocks. rewrite lookup_flat_rows.
    set (n := ncols mat) in *. assert (Hn : n ≠ 0) by lia.
    case_decide as Hp; split.
    + intros [= Hd Hm _ _]. rewrite (Nat.div_mod p n Hn). lia.
    + intros ->. unfold psd_block, x_var_of. fold X. fold n.
      assert (Hd : (i * n + j) / n = i).
      { symmetry. apply (Nat.div_unique _ n i j); lia. }
      assert (Hm : (i * n + j) mod n = j).
      { symmetry. apply (Nat.mod_unique _ n i j); lia. }
      by rewrite Hd, Hm.
    + done.
    + intros ->. exfalso. apply Hp. nia.
Qed.

(** C6. A matrix with a negative entry, or one that is not square, makes
    [positive_semidefinite_rank] raise a [ValueError] at once: the
    computation is the raise itself, so no feasibility check is built and
    the solver is never called. *)
Theorem psd_rank_invalid_input (mat : ndarray) (max_rank : Z) :
  (∃ r q, r ∈ rows mat ∧ q ∈ r ∧ (q < 0)%Q) ∨ nrows mat ≠ ncols mat →
  (positive_semidefinite_rank mat max_rank = Raise (ValueError "Matrix must be nonnegative.")
   ∨ positive_semidefinite_rank mat max_rank = Raise (ValueError "Matrix must be square."))
  ∧ ∀ slv, (run slv (positive_semidefinite_rank mat max_rank)).2 = [].
Proof.
  intros H.
  assert (positive_semidefinite_rank mat max_rank = Raise (ValueError "Matrix must be nonnegative.")
   ∨ positive_semidefinite_rank mat max_rank = Raise (ValueError "Matrix must be square."))
    as Hr.
  { unfold positive_semidefinite_rank.
    destruct (np_all_ge0 mat) eqn:Hnn; simpl; [|by left].
    destruct H as [Hneg%np_all_ge0_false|Hns]; [congruence|].
    unfold is_square. apply Nat.eqb_neq in Hns. rewrite Hns. by right. }
  split; [done|]. intros slv. by destruct Hr as [-> | ->].
Qed.

(** C10. Whatever the solver answers, a value [k] returned by
    [positive_semidefinite_rank] satisfies [1 <= k <= max_rank]; and for
    [max_rank < 1] a nonnegative square matrix gives [None] with no problem
    built and no call of the solver. *)
Theorem psd_rank_result_range (mat : ndarray) (max_rank : Z) :
  (∀ slv k, (run slv (positive_semidefinite_rank mat max_rank)).1 = inr (Some k) →
            (1 ≤ k ≤ max_rank)%Z)
  ∧ (np_all_ge0 mat = true → is_square mat = true → (max_rank < 1)%Z →
     positive_semidefinite_rank mat max_rank = Ret None).
Proof.
  unfold positive_semidefinite_rank, rangeZ. split.
  - intros slv k.
    destruct (np_all_ge0 mat); simpl; [|done].
    destruct (is_square mat); simpl; [|done].
    intros Hk%run_rank_search_elem. apply elem_of_seqZ in Hk. lia.
  - intros -> -> Hlt. simpl. by rewrite seqZ_nil by lia.
Qed.

(** C2. For a nonnegative square matrix with at least one row and
    [max_rank >= 1]: the check at
    [k] calls the solver once, with [eps = 1e-8], and answers true exactly
    when the reported status is optimal and the value is below the float
    [1e-6]; the
    search returns the first [k] of [1, ..., max_rank] whose check answers
    true, after solving the problems of [1, ..., k] in this order and no
    other; when no check answers true it returns [None] after solving the
    problems of [1, ..., max_rank]. *)
Theorem psd_rank_search (slv : solver) (mat : ndarray) (max_rank : Z) :
  np_all_ge0 mat = true → is_square mat = true → 0 < nrows mat →
  (1 ≤ max_rank)%Z →
  let call k := psd_call (psd_problem mat k) in
  let feasible k := feasible_at slv mat k in
  (∀ k, run slv (_check_psd_rank mat k) = (inr (feasible k), [call k])
        ∧ call_eps (call k) = Some (1 # 100000000)%Q
        ∧ (feasible k = true ↔
           status (slv (call k)) = OPTIMAL
           ∧ objval_lt (value (slv (call k))) float_1e_6))
  ∧ (∀ k, (1 ≤ k ≤ max_rank)%Z → feasible k = true →
          (∀ j, (1 ≤ j < k)%Z → feasible j = false) →
          run slv (positive_semidefinite_rank mat max_rank) =
          (inr (Some k), map call (rangeZ 1 (k + 1))))
  ∧ ((∀ k, (1 ≤ k ≤ max_rank)%Z → feasible k = false) →
     run slv (positive_semidefinite_rank mat max_rank) =
     (inr None, map call (rangeZ 1 (max_rank + 1)))).
Proof.
  intros Hnn Hsq _ Hmax call feasible. split; [|split].
  - intros k. split; [by apply run_check_psd_rank|]. split; [done|].
    unfold feasible, feasible_at. fold (call k).
    by rewrite andb_true_iff, bool_decide_eq_true, objval_ltb_lt.
  - intros k Hk Hfeas Hfirst.
    unfold positive_semidefinite_rank, rangeZ. rewrite Hnn, Hsq. simpl.
    replace (max_rank + 1 - 1)%Z with ((k - 1) + (1 + (max_rank - k)))%Z by lia.
    rewrite seqZ_app by lia. rewrite (seqZ_cons (1 + (k - 1))) by lia.
    replace (1 + (k - 1))%Z with k by lia.
    rewrite run_rank_search_found; [|done| |done].
    + f_equal. f_equal.
      replace (k + 1 - 1)%Z with ((k - 1) + 1)%Z by lia.
      rewrite seqZ_app by lia. f_equal.
      rewrite seqZ_cons by lia. replace (1 + (k - 1))%Z with k by lia.
      by rewrite seqZ_nil by lia.
    + apply Forall_seqZ. intros j Hj. apply Hfirst. lia.
  - intros Hnone.
    unfold positive_semidefinite_rank, rangeZ. rewrite Hnn, Hsq. simpl.
    apply run_rank_search_none; [done|].
    apply Forall_seqZ. intros j Hj. apply Hnone. lia.
Qed.

(** ** Arrays *)

Lemma get_tabulate (r c : nat) (f : nat → nat → Q) (i j : nat) :
  i < r → j < c → get (tabulate r c f) i j = f i j.
Proof.
  intros Hi Hj. unfold get, tabulate. simpl.
  rewrite !nth_lookup, list_lookup_fmap, lookup_seq_lt by done. simpl.
  by rewrite list_lookup_fmap, lookup_seq_lt by done.
Qed.

Lemma get_np_scale (c : Q) (A : ndarray) (i j : nat) :
  i < nrows A → j < ncols A → get (np_scale c A) i j = (c * get A i j)%Q.
Proof. intros Hi Hj. unfold np_scale. by rewrite get_tabulate. Qed.

Lemma get_np_eye (n i j : nat) :
  i < n → j < n → get (np_eye n) i j = if i =? j then 1%Q else 0%Q.
Proof. intros Hi Hj. unfold np_eye. by rewrite get_tabulate. Qed.

Lemma get_mat_add (A B : ndarray) (i j : nat) :
  i < nrows A → j < ncols A → get (mat_add A B) i j = (get A i j + get B i j)%Q.
Proof. intros Hi Hj. unfold mat_add. by rewrite get_tabulate. Qed.


Lemma Qplus_comm_eq (x y : Q) : (x + y)%Q = (y + x)%Q.
Proof. unfold Qplus. f_equal; [apply Z.add_comm|apply Pos.mul_comm]. Qed.

Lemma well_shaped_tabulate (r c : nat) (f : nat → nat → Q) :
  well_shaped (tabulate r c f).
Proof.
  split; simpl.
  - by rewrite length_map, length_seq.
  - apply Forall_forall. intros row (i & -> & _)%list_elem_of_fmap.
    by rewrite length_map, length_seq.
Qed.

Lemma get_reshape_col (v : list Q) (i : nat) : get (reshape_col v) i 0 = vget v i.
Proof.
  unfold get, vget, reshape_col. simpl.
  rewrite !(nth_lookup _ i), list_lookup_fmap.
  by destruct (v !! i).
Qed.

Lemma dim_prod_repeat (n : nat) : dim_prod (repeat 2 n) = 2 ^ n.
Proof. unfold dim_prod. induction n as [|n IH]; simpl; [done|]. lia. Qed.

Lemma for_each_ret {I S} (P : S → Prop) (l : list I) (body : I → S → prog S)
    (f : S → I → S) (s : S) :
  (∀ i s, i ∈ l → P s → body i s = Ret (f s i) ∧ P (f s i)) →
  P s →
  for_each l body s = Ret (fold_left f l s) ∧ P (fold_left f l s).
Proof.
  revert s. induction l as [|i l IH]; intros s Hbody Hs; [done|].
  simpl. destruct (Hbody i s) as [-> HP]; [left|done|]. simpl.
  apply IH; [|done]. intros j s' Hj. apply Hbody. by right.
Qed.

Lemma fold_left_flat_map {A B S} (f : S → B → S) (g : A → list B) (l : list A) (s : S) :
  fold_left f (flat_map g l) s = fold_left (λ s a, fold_left f (g a) s) l s.
Proof.
  revert s. induction l as [|a l IH]; intros s; simpl; [done|].
  by rewrite fold_left_app, IH.
Qed.

Lemma fold_left_ext {A S} (f g : S → A → S) (l : list A) (s : S) :
  (∀ s a, f s a = g s a) → fold_left f l s = fold_left g l s.
Proof.
  intros H. revert s. induction l as [|a l IH]; intros s; simpl; [done|].
  by rewrite H, IH.
Qed.

Lemma fold_left_map {A B S} (f : S → B → S) (g : A → B) (l : list A) (s : S) :
  fold_left f (map g l) s = fold_left (λ s a, f s (g a)) l s.
Proof. revert s. induction l as [|a l IH]; intros s; simpl; [done|]. by rewrite IH. Qed.

(** ** The permutation built by [MN_matrix] *)

Lemma exchange_length (n i j : nat) : length (exchange n i j) = n.
Proof. unfold exchange. by rewrite length_map, length_seq. Qed.

Lemma exchange_lookup (n i j p : nat) :
  p < n →
  exchange n i j !! p = Some (if p =? i then j else if p =? j then i else p).
Proof.
  intros Hp. unfold exchange. by rewrite list_lookup_fmap, lookup_seq_lt.
Qed.

Lemma exchange_same (n i : nat) : exchange n i i = seq 0 n.
Proof.
  unfold exchange. rewrite <- (map_id (seq 0 n)) at 2.
  apply map_ext. intros p. by destruct (Nat.eqb_spec p i).
Qed.

Lemma setitem_exchange (m x : nat) :
  x ≤ m →
  <[x:=0]> (<[0:=x]> (seq 0 (m + 1))) = exchange (m + 1) 0 x.
Proof.
  intros Hx. apply list_eq. intros p.
  destruct (decide (p < m + 1)) as [Hp|Hp].
  - rewrite exchange_lookup by done.
    destruct (decide (p = x)) as [->|Hpx].
    + rewrite list_lookup_insert_eq by (rewrite length_insert, length_seq; lia).
      destruct (Nat.eqb_spec x 0) as [->|]; [done|]. by rewrite Nat.eqb_refl.
    + rewrite list_lookup_insert_ne by done.
      destruct (decide (p = 0)) as [->|Hp0].
      * rewrite list_lookup_insert_eq by (rewrite length_seq; lia). done.
      * rewrite list_lookup_insert_ne by done.
        rewrite lookup_seq_lt by done.
        destruct (Nat.eqb_spec p 0); [done|]. by destruct (Nat.eqb_spec p x).
  - rewrite !lookup_ge_None_2; [done|..].
    + rewrite exchange_length. lia.
    + rewrite !length_insert, length_seq. lia.
Qed.

Lemma shape_np_scale (c : Q) (A : ndarray) : shape (np_scale c A) = shape A.
Proof. reflexivity. Qed.

Lemma pow2_square (m : nat) : 2 ^ (m + 1) * 2 ^ (m + 1) = 2 ^ (2 * m + 2).
Proof. rewrite <- Nat.pow_add_r. f_equal. lia. Qed.

Ltac in_bounds :=
  repeat match goal with
  | |- context [(?i <? ?n) && (?j <? ?k)] =>
      replace ((i <? n) && (j <? k)) with true
        by (symmetry; apply andb_true_intro; split; apply Nat.ltb_lt; simpl; lia)
  end.

(** ** [itertools.combinations] *)

Lemma combinations_map {A B} (f : A → B) (l : list A) (r : nat) :
  combinations (map f l) r = map (map f) (combinations l r).
Proof.
  revert r. induction l as [|x l IH]; intros [|r]; simpl; try done.
  by rewrite !IH, map_app, !map_map.
Qed.





Lemma fold_left_snoc {A B} (g : A → B) (l : list A) (acc : list B) :
  fold_left (λ acc a, acc ++ [g a]) l acc = acc ++ map g l.
Proof.
  revert acc. induction l as [|a l IH]; intros acc; simpl.
  - by rewrite app_nil_r.
  - by rewrite IH, <- app_assoc.
Qed.

(** ** The constraints of [bell_inequality_max] *)

Lemma bell_constraints_eq (m : nat) :
  bell_constraints m
  = [CEq (ETrace (bell_W m)) (EInt 1); CPsd (bell_W m)] ++ bell_ppt m.
Proof.
  unfold bell_constraints, bell_ppt, range.
  replace (m + 1 - 1) with m by lia.
  replace (2 * m - 1 - 1) with (2 * m - 2) by lia.
  generalize [CEq (ETrace (bell_W m)) (EInt 1); CPsd (bell_W m)].
  generalize (seq 1 m). intros szs. induction szs as [|sz szs IH]; intros cs; simpl.
  - by rewrite app_nil_r.
  - rewrite fold_left_snoc, IH, <- app_assoc. do 2 f_equal.
    rewrite <- map_map, <- combinations_map. do 2 f_equal.
    rewrite <- seq_shift, map_map. rewrite <- (map_id (seq 0 _)) at 2.
    apply map_ext. intros i. lia.
Qed.




(** ** Symmetrization *)

Lemma symmetrize_ret (M : ndarray) :
  nrows M = ncols M → symmetrize M = Ret (symmetric_part M).
Proof.
  intros Hsq. unfold symmetrize, np_add.
  rewrite bool_decide_eq_true_2; [done|].
  unfold shape, np_transpose. simpl. by rewrite Hsq.
Qed.

Lemma get_symmetric_part (M : ndarray) (i j : nat) :
  nrows M = ncols M → i < nrows M → j < nrows M →
  get (symmetric_part M) i j = ((get M i j + get M j i) / 2)%Q.
Proof.
  intros Hsq Hi Hj. unfold symmetric_part, np_div, mat_add, np_transpose.
  cbn [nrows ncols tabulate].
  rewrite get_tabulate by lia. rewrite get_tabulate by lia.
  by rewrite get_tabulate by lia.
Qed.

(** The symmetrized operator is symmetric, entry by entry. *)
Lemma symmetric_part_symmetric (M : ndarray) (i j : nat) :
  nrows M = ncols M → i < nrows M → j < nrows M →
  get (symmetric_part M) i j = get (symmetric_part M) j i.
Proof.
  intros Hsq Hi Hj. rewrite !get_symmetric_part by done.
  by rewrite Qplus_comm_eq.
Qed.

(** ** Computations that do not raise a given exception *)

Lemma bind_not_raise {A B} (bad : exn) (p : prog A) (f : A → prog B) :
  p ≠ Raise bad → (∀ a, f a ≠ Raise bad) → bind p f ≠ Raise bad.
Proof. intros Hp Hf. destruct p; simpl; [apply Hf|congruence|done]. Qed.

Lemma for_each_not_raise {I S} (bad : exn) (l : list I) (body : I → S → prog S) (s : S) :
  (∀ i s, body i s ≠ Raise bad) → for_each l body s ≠ Raise bad.
Proof.
  intros Hb. revert s. induction l as [|i l IH]; intros s; simpl; [done|].
  by apply bind_not_raise.
Qed.

Lemma getitem_not_raise (A : ndarray) (i j : nat) (msg : string) :
  getitem A i j ≠ Raise (ValueError msg).
Proof. unfold getitem. by destruct (_ && _). Qed.

Lemma list_setitem_not_raise {A} (l : list A) (i : nat) (x : A) (msg : string) :
  list_setitem l i x ≠ Raise (ValueError msg).
Proof. unfold list_setitem. by destruct (_ <? _). Qed.

Lemma np_add_not_raise (A B : ndarray) :
  np_add A B ≠ Raise two_outcomes_error.
Proof. unfold np_add. by case_bool_decide. Qed.

(** ** The objective operator of [bell_inequality_max] *)

Section BellProperties.

Variable permutation_operator : list nat → list nat → bool → bool → ndarray.

(** The permutation operator acts on the full tensor space. *)
Hypothesis permutation_operator_shape : ∀ dims perm inv_perm is_sparse,
  shape (permutation_operator dims perm inv_perm is_sparse)
  = (dim_prod dims, dim_prod dims).

Lemma measurement_operator_shape (m a x : nat) :
  shape (measurement_operator permutation_operator m a x)
  = (2 ^ (m + 1), 2 ^ (m + 1)).
Proof. reflexivity. Qed.

Lemma MN_matrix_ret (m a x : nat) :
  x ≤ m →
  MN_matrix permutation_operator m a x
  = Ret (measurement_operator permutation_operator m a x).
Proof.
  intros Hx. unfold MN_matrix, list_setitem, range.
  rewrite Nat.sub_0_r, length_seq.
  assert ((0 <? m + 1) = true) as -> by (apply Nat.ltb_lt; lia).
  cbn [bind]. rewrite length_insert, length_seq.
  assert ((x <? m + 1) = true) as -> by (apply Nat.ltb_lt; lia).
  cbn [bind]. rewrite setitem_exchange by done.
  unfold np_add. rewrite bool_decide_eq_true_2; [done|].
  rewrite !shape_np_scale, permutation_operator_shape, dim_prod_repeat.
  reflexivity.
Qed.

Lemma bell_coefficient_ret (joint_coe : ndarray) (a_coe b_coe a_val b_val : list Q)
    (a b x y : nat) :
  valid_bell_input joint_coe a_coe b_coe a_val b_val →
  a < 2 → b < 2 → 1 ≤ x ≤ nrows joint_coe → 1 ≤ y ≤ nrows joint_coe →
  bell_coefficient joint_coe (reshape_col a_coe) (reshape_col b_coe)
    (reshape_col a_val) (reshape_col b_val) a b x y
  = Ret (bell_coeff joint_coe a_coe b_coe a_val b_val a b x y).
Proof.
  intros (_ & Hc & Hac & Hbc & Hav & Hbv) Ha Hb Hx Hy.
  unfold bell_coefficient, bell_coeff, getitem.
  in_bounds. cbn [bind]. rewrite !get_reshape_col.
  destruct (y =? 1); destruct (x =? 1); cbn [bind]; by rewrite ?get_reshape_col.
Qed.

Lemma bell_objective_loop_ret (joint_coe : ndarray) (a_coe b_coe a_val b_val : list Q) :
  valid_bell_input joint_coe a_coe b_coe a_val b_val →
  bell_objective_loop permutation_operator joint_coe (reshape_col a_coe)
    (reshape_col b_coe) (reshape_col a_val) (reshape_col b_val) (nrows joint_coe)
  = Ret (bell_operator permutation_operator joint_coe a_coe b_coe a_val b_val
           (nrows joint_coe)).
Proof.
  intros Hv. set (m := nrows joint_coe).
  set (P := λ s : ndarray, shape s = (2 ^ (2 * m + 2), 2 ^ (2 * m + 2))).
  set (st := λ (acc : ndarray) (t : nat * nat * nat * nat),
         let '(a, b, x, y) := t in
         mat_add acc
           (np_scale (bell_coeff joint_coe a_coe b_coe a_val b_val a b x y)
              (np_kron (measurement_operator permutation_operator m a x)
                       (measurement_operator permutation_operator m b y)))).
  assert (Hy : ∀ a b x, a < 2 → b < 2 → 1 ≤ x ≤ m → ∀ y s,
    y ∈ range 1 (m + 1) → P s →
    (do b_coeff <- bell_coefficient joint_coe (reshape_col a_coe)
                     (reshape_col b_coe) (reshape_col a_val) (reshape_col b_val) a b x y ;
     do Ma <- MN_matrix permutation_operator m a x ;
     do Nb <- MN_matrix permutation_operator m b y ;
     np_add s (np_scale b_coeff (np_kron Ma Nb))) = Ret (st s (a, b, x, y))
    ∧ P (st s (a, b, x, y))).
  { intros a b x Ha Hb Hx y s Hy%elem_of_seq Hs.
    rewrite bell_coefficient_ret by (done || (fold m; lia)). cbn [bind].
    rewrite !MN_matrix_ret by lia. cbn [bind].
    unfold np_add. rewrite bool_decide_eq_true_2; [done|].
    rewrite Hs. unfold shape, np_scale, np_kron. cbn [nrows ncols tabulate].
    f_equal; symmetry; exact (pow2_square m). }
  set (f3 := λ a b (s : ndarray) x,
         fold_left (λ s y, st s (a, b, x, y)) (range 1 (m + 1)) s).
  set (f2 := λ a (s : ndarray) b, fold_left (f3 a b) (range 1 (m + 1)) s).
  set (f1 := λ (s : ndarray) a, fold_left (f2 a) (range 0 2) s).
  assert (H3 : ∀ a b, a < 2 → b < 2 → ∀ x s, x ∈ range 1 (m + 1) → P s →
    for_each (range 1 (m + 1)) (λ y obj_mat,
      do b_coeff <- bell_coefficient joint_coe (reshape_col a_coe)
                      (reshape_col b_coe) (reshape_col a_val) (reshape_col b_val) a b x y ;
      do Ma <- MN_matrix permutation_operator m a x ;
      do Nb <- MN_matrix permutation_operator m b y ;
      np_add obj_mat (np_scale b_coeff (np_kron Ma Nb))) s
    = Ret (f3 a b s x) ∧ P (f3 a b s x)).
  { intros a b Ha Hb x s Hx%elem_of_seq Hs.
    apply (for_each_ret P); [|done]. apply Hy; lia. }
  assert (H2 : ∀ a, a < 2 → ∀ b s, b ∈ range 0 2 → P s →
    for_each (range 1 (m + 1)) (λ x,
      for_each (range 1 (m + 1)) (λ y obj_mat,
        do b_coeff <- bell_coefficient joint_coe (reshape_col a_coe)
                        (reshape_col b_coe) (reshape_col a_val) (reshape_col b_val) a b x y ;
        do Ma <- MN_matrix permutation_operator m a x ;
        do Nb <- MN_matrix permutation_operator m b y ;
        np_add obj_mat (np_scale b_coeff (np_kron Ma Nb)))) s
    = Ret (f2 a s b) ∧ P (f2 a s b)).
  { intros a Ha b s Hb%elem_of_seq Hs.
    apply (for_each_ret P); [|done]. apply H3; lia. }
  assert (H1 : ∀ a s, a ∈ range 0 2 → P s →
    for_each (range 0 2) (λ b,
      for_each (range 1 (m + 1)) (λ x,
        for_each (range 1 (m + 1)) (λ y obj_mat,
          do b_coeff <- bell_coefficient joint_coe (reshape_col a_coe)
                          (reshape_col b_coe) (reshape_col a_val) (reshape_col b_val) a b x y ;
          do Ma <- MN_matrix permutation_operator m a x ;
          do Nb <- MN_matrix permutation_operator m b y ;
          np_add obj_mat (np_scale b_coeff (np_kron Ma Nb))))) s
    = Ret (f1 s a) ∧ P (f1 s a)).
  { intros a s Ha%elem_of_seq Hs.
    apply (for_each_ret P); [|done]. apply H2; lia. }
  unfold bell_objective_loop. fold m.
  destruct (for_each_ret P (range 0 2) _ f1
              (np_zeros (2 ^ (2 * m + 2)) (2 ^ (2 * m + 2))) H1 eq_refl) as [Heq _].
  etransitivity; [exact Heq|]. clear Heq.
  f_equal. unfold bell_operator, bell_terms.
  assert (Hr : range 1 (m + 1) = seq 1 m) by (unfold range; f_equal; lia).
  rewrite fold_left_flat_map. apply fold_left_ext. intros s a.
  rewrite fold_left_flat_map. apply fold_left_ext. intros s' b.
  rewrite fold_left_flat_map. unfold f2. rewrite Hr.
  apply fold_left_ext. intros s'' x.
  unfold f3. by rewrite Hr, fold_left_map.
Qed.

Lemma bell_operator_shape (joint_coe : ndarray) (a_coe b_coe a_val b_val : list Q)
    (m : nat) :
  shape (bell_operator permutation_operator joint_coe a_coe b_coe a_val b_val m)
  = (2 ^ (2 * m + 2), 2 ^ (2 * m + 2)).
Proof.
  unfold bell_operator.
  change (2 ^ (2 * m + 2), 2 ^ (2 * m + 2))
    with (shape (np_zeros (2 ^ (2 * m + 2)) (2 ^ (2 * m + 2)))).
  generalize (np_zeros (2 ^ (2 * m + 2)) (2 ^ (2 * m + 2))).
  induction (bell_terms m) as [|[[[a b] x] y] l IH]; intros acc; [done|].
  cbn [fold_left]. by rewrite IH.
Qed.

Lemma bell_inequality_max_solve (joint_coe : ndarray) (a_coe b_coe a_val b_val : list Q) :
  valid_bell_input joint_coe a_coe b_coe a_val b_val →
  bell_inequality_max permutation_operator joint_coe a_coe b_coe a_val b_val
  = Solve
      (bell_call
         (bell_problem (nrows joint_coe)
            (symmetric_part
               (bell_operator permutation_operator joint_coe a_coe b_coe a_val b_val
                  (nrows joint_coe)))))
      (λ s, Ret (value s)).
Proof.
  intros Hv. unfold bell_inequality_max.
  rewrite bell_objective_loop_ret by done.
  destruct Hv as (_ & _ & _ & _ & -> & ->). cbn [Nat.eqb negb orb bind].
  rewrite symmetrize_ret; [done|].
  pose proof (bell_operator_shape joint_coe a_coe b_coe a_val b_val (nrows joint_coe)) as Hs.
  unfold shape in Hs. congruence.
Qed.

Lemma MN_matrix_not_raise (m a x : nat) :
  MN_matrix permutation_operator m a x ≠ Raise two_outcomes_error.
Proof.
  unfold MN_matrix.
  apply bind_not_raise; [apply list_setitem_not_raise|]. intros perm.
  apply bind_not_raise; [apply list_setitem_not_raise|]. intros perm'.
  apply np_add_not_raise.
Qed.

Lemma bell_coefficient_not_raise (joint_coe a_coe b_coe a_val b_val : ndarray)
    (a b x y : nat) :
  bell_coefficient joint_coe a_coe b_coe a_val b_val a b x y ≠ Raise two_outcomes_error.
Proof.
  unfold bell_coefficient.
  repeat (apply bind_not_raise; [try apply getitem_not_raise|intros ?]).
  - destruct (y =? 1); [|done].
    repeat (apply bind_not_raise; [apply getitem_not_raise|intros ?]). done.
  - destruct (x =? 1); [|done].
    repeat (apply bind_not_raise; [apply getitem_not_raise|intros ?]). done.
Qed.

(** ** Claims on [bell_inequality_max] *)

(** C8. For [m >= 1], [a] in [{0, 1}] and [x] in [0..m], [MN_matrix m a x]
    returns one matrix, a function of [(m, a, x)]: it is
    [2^(m+1) × 2^(m+1)], and its entry [(i, j)] is
    [a·I_ij + (-1)^a·P_ij], where [P] is the permutation operator on
    [m + 1] subsystems of dimension 2 for the list that exchanges the
    positions [0] and [x], which is the identity list when [x = 0]. *)
Theorem MN_matrix_operator (m a x : nat) :
  1 ≤ m → a ≤ 1 → x ≤ m →
  let perm := exchange (m + 1) 0 x in
  let P := permutation_operator (repeat 2 (m + 1)) perm false true in
  let n := 2 ^ (m + 1) in
  ∃ MN,
    MN_matrix permutation_operator m a x = Ret MN
    ∧ shape MN = (n, n) ∧ well_shaped MN
    ∧ (∀ i j, i < n → j < n →
         get MN i j
         = (inject_Z (Z.of_nat a) * (if i =? j then 1 else 0)
            + inject_Z ((-1) ^ Z.of_nat a) * get P i j)%Q)
    ∧ length perm = m + 1
    ∧ (∀ p, p ≤ m → perm !! p = Some (if p =? 0 then x else if p =? x then 0 else p))
    ∧ (x = 0 → perm = seq 0 (m + 1)).
Proof.
  intros _ _ Hx perm P n.
  exists (measurement_operator permutation_operator m a x).
  split; [by apply MN_matrix_ret|]. split; [done|].
  split; [apply well_shaped_tabulate|]. split; [|split; [|split]].
  - intros i j Hi Hj. unfold measurement_operator. fold perm. fold P. fold n.
    pose proof (permutation_operator_shape (repeat 2 (m + 1)) perm false true) as Hs.
    fold P in Hs. rewrite dim_prod_repeat in Hs. fold n in Hs.
    injection Hs as Hr Hc.
    rewrite get_mat_add by done.
    rewrite (get_np_scale _ (np_eye n)) by done.
    rewrite (get_np_scale _ P) by lia.
    by rewrite get_np_eye by done.
  - apply exchange_length.
  - intros p Hp. apply exchange_lookup. lia.
  - intros ->. apply exchange_same.
Qed.


(** C1, as the code has it. For a valid input with [m >= 1] settings,
    [bell_inequality_max] calls the solver once, on the problem it built,
    and returns the value the solver reports, whatever the reported
    status: it raises nothing on a status that is not optimal. *)
Theorem bell_returns_solver_value (slv : solver) (joint_coe : ndarray)
    (a_coe b_coe a_val b_val : list Q) :
  valid_bell_input joint_coe a_coe b_coe a_val b_val →
  1 ≤ nrows joint_coe →
  ∃ obj_mat,
    let c := bell_call (bell_problem (nrows joint_coe) obj_mat) in
    run slv (bell_inequality_max permutation_operator joint_coe a_coe b_coe a_val b_val)
    = (inr (value (slv c)), [c]).
Proof.
  intros Hv _. eexists. cbv zeta.
  rewrite bell_inequality_max_solve by done. reflexivity.
Qed.

(** C7. [bell_inequality_max] raises its two-outcomes [ValueError]
    exactly when [a_val] or [b_val] has a length other than 2; the
    computation is then the raise itself: no objective operator is built
    and the solver is not called. With two entries in each it goes past
    the check and never raises that error. *)
Theorem bell_length_check (joint_coe : ndarray) (a_coe b_coe a_val b_val : list Q) :
  (bell_inequality_max permutation_operator joint_coe a_coe b_coe a_val b_val
   = Raise two_outcomes_error
   ↔ length a_val ≠ 2 ∨ length b_val ≠ 2)
  ∧ (length a_val ≠ 2 ∨ length b_val ≠ 2 →
     ∀ slv, run slv (bell_inequality_max permutation_operator joint_coe
                       a_coe b_coe a_val b_val)
            = (inl two_outcomes_error, [])).
Proof.
  assert (Hraise : length a_val ≠ 2 ∨ length b_val ≠ 2 →
    bell_inequality_max permutation_operator joint_coe a_coe b_coe a_val b_val
    = Raise two_outcomes_error).
  { intros H. unfold bell_inequality_max.
    destruct (Nat.eqb_spec (length a_val) 2); [|done].
    destruct (Nat.eqb_spec (length b_val) 2); [|done]. lia. }
  split; [split; [|done]|by intros H slv; rewrite Hraise].
  intros Heq.
  destruct (decide (length a_val = 2)) as [Ha|]; [|by left].
  destruct (decide (length b_val = 2)) as [Hb|]; [|by right].
  exfalso. revert Heq. unfold bell_inequality_max. rewrite Ha, Hb.
  cbn [Nat.eqb negb orb].
  apply bind_not_raise.
  - unfold bell_objective_loop.
    do 4 (apply for_each_not_raise; intros ? ?).
    apply bind_not_raise; [apply bell_coefficient_not_raise|intros ?].
    apply bind_not_raise; [apply MN_matrix_not_raise|intros ?].
    apply bind_not_raise; [apply MN_matrix_not_raise|intros ?].
    apply np_add_not_raise.
  - intros obj_mat. apply bind_not_raise; [|done].
    unfold symmetrize. apply bind_not_raise; [apply np_add_not_raise|done].
Qed.

End BellProperties.

(** ** The claims at concrete inputs *)

Lemma permutation_operator_model_shape (dims perm : list nat) (inv_perm is_sparse : bool) :
  shape (permutation_operator_model dims perm inv_perm is_sparse)
  = (dim_prod dims, dim_prod dims).
Proof. reflexivity. Qed.

Lemma valid_bell_input_1 : valid_bell_input joint_coe_1 [1%Q] [1%Q] [0%Q; 1%Q] [0%Q; 1%Q].
Proof. repeat split; repeat constructor. Qed.

(** [M_1^1 = I - SWAP] on two qubits. *)
Example MN_matrix_1_1_1 :
  MN_matrix permutation_operator_model 1 1 1
  = Ret {| nrows := 4; ncols := 4;
           rows := [[0; 0; 0; 0]; [0; 1; -1; 0]; [0; -1; 1; 0]; [0; 0; 0; 0]]%Q |}.
Proof. reflexivity. Qed.

(** The setting index must be one of the [m + 1] positions. *)
Example MN_matrix_1_1_2 : MN_matrix permutation_operator_model 1 1 2 = Raise IndexError.
Proof. reflexivity. Qed.

(** With two settings there are three PPT constraints: [{0}], [{1}], [{0,1}]. *)
Example bell_constraints_2 :
  bell_constraints 2
  = [CEq (ETrace (EVariable 16 16 true)) (EInt 1);
     CPsd (EVariable 16 16 true);
     CPsd (EPartialTranspose (EVariable 16 16 true) [0] [4; 2; 2]);
     CPsd (EPartialTranspose (EVariable 16 16 true) [1] [4; 2; 2]);
     CPsd (EPartialTranspose (EVariable 16 16 true) [0; 1] [4; 2; 2])].
Proof. reflexivity. Qed.

Example psd_rank_eye_2 :
  (run (threshold_solver 2) (positive_semidefinite_rank (np_eye 2) default_max_rank)).1
  = inr (Some 2%Z).
Proof. reflexivity. Qed.

(** The rank found for the identity is the one the solver's answers give:
    3 with a solver that accepts the budgets from 3 on, none with a solver
    that accepts no budget. *)
Example psd_rank_eye_3 :
  (run (threshold_solver 3) (positive_semidefinite_rank (np_eye 3) default_max_rank)).1
  = inr (Some 3%Z).
Proof. reflexivity. Qed.

Example psd_rank_eye_3_infeasible :
  (run infeasible_solver (positive_semidefinite_rank (np_eye 3) default_max_rank)).1
  = inr None.
Proof. reflexivity. Qed.

Example psd_rank_not_square :
  positive_semidefinite_rank {| nrows := 1; ncols := 2; rows := [[1; 2]]%Q |} 10
  = Raise (ValueError "Matrix must be square.").
Proof. reflexivity. Qed.

Lemma check_psd_rank_builds_sdp_witness :
  ∃ blocks κ,
    _check_psd_rank (np_eye 2) 1
    = Solve (psd_call {| prob_objective := psd_objective (np_eye 2);
                         prob_constraints := blocks ++ [nuc_bound (np_eye 2) 1] |}) κ
    ∧ length blocks = 4.
Proof.
  destruct (check_psd_rank_builds_sdp (np_eye 2) 1 eq_refl eq_refl)
    as (blocks & κ & H1 & H2 & _).
  exists blocks, κ. split; [exact H1|exact H2].
Defined.

Lemma psd_rank_invalid_input_witness :
  (run infeasible_solver
     (positive_semidefinite_rank {| nrows := 1; ncols := 1; rows := [[(-1)%Q]] |} 10)).2
  = [].
Proof.
  apply (psd_rank_invalid_input {| nrows := 1; ncols := 1; rows := [[(-1)%Q]] |} 10).
  left. exists [(-1)%Q], (-1)%Q.
  split; [constructor|]. split; [constructor|]. reflexivity.
Defined.

Lemma psd_rank_result_range_witness :
  positive_semidefinite_rank (np_eye 2) 0 = Ret None.
Proof.
  apply (psd_rank_result_range (np_eye 2) 0); [reflexivity|reflexivity|lia].
Defined.

Lemma psd_rank_search_witness :
  run (threshold_solver 2) (positive_semidefinite_rank (np_eye 2) 10)
  = (inr (Some 2%Z), map (λ k, psd_call (psd_problem (np_eye 2) k)) (rangeZ 1 3)).
Proof.
  apply (psd_rank_search (threshold_solver 2) (np_eye 2) 10);
    [reflexivity|reflexivity|simpl; lia|lia|lia|reflexivity|].
  intros j Hj. assert (j = 1%Z) as -> by lia. reflexivity.
Defined.

Lemma MN_matrix_operator_witness :
  ∃ MN, MN_matrix permutation_operator_model 1 1 1 = Ret MN ∧ shape MN = (4, 4).
Proof.
  destruct (MN_matrix_operator permutation_operator_model
              permutation_operator_model_shape 1 1 1) as (MN & H1 & H2 & _);
    [lia|lia|lia|].
  exists MN. split; [exact H1|exact H2].
Defined.

Lemma valid_bell_input_2 : valid_bell_input joint_coe_2 a_coe_2 b_coe_2 val_01 val_01.
Proof. repeat split; repeat constructor. Qed.


Lemma bell_returns_solver_value_witness :
  ∃ obj_mat,
    run infeasible_solver
      (bell_inequality_max permutation_operator_model joint_coe_2
         a_coe_2 b_coe_2 val_01 val_01)
    = (inr NInf, [bell_call (bell_problem 2 obj_mat)]).
Proof.
  destruct (bell_returns_solver_value permutation_operator_model
              permutation_operator_model_shape infeasible_solver joint_coe_2
              a_coe_2 b_coe_2 val_01 val_01 valid_bell_input_2) as [obj_mat H];
    [simpl; lia|].
  exists obj_mat. exact H.
Defined.

Lemma bell_length_check_witness :
  run infeasible_solver
    (bell_inequality_max permutation_operator_model joint_coe_1
       [1%Q] [1%Q] [0%Q; 1%Q; 2%Q] [0%Q; 1%Q])
  = (inl two_outcomes_error, []).
Proof.
  apply (bell_length_check permutation_operator_model joint_coe_1
           [1%Q] [1%Q] [0%Q; 1%Q; 2%Q] [0%Q; 1%Q]).
  left. simpl. lia.
Defined.

(** C1, as stated, fails: on a valid input and with a solver that reports
    the problem infeasible, [bell_inequality_max] raises nothing and returns
    the value the solver left in [prob.value]. *)
Lemma bell_non_optimal_status_not_reported :
  ¬ (∀ (slv : solver) (joint_coe : ndarray) (a_coe b_coe a_val b_val : list Q),
       valid_bell_input joint_coe a_coe b_coe a_val b_val →
       let p := bell_inequality_max permutation_operator_model joint_coe
                  a_coe b_coe a_val b_val in
       (∀ c, c ∈ (run slv p).2 → status (slv c) ≠ OPTIMAL) →
       ∃ e, (run slv p).1 = inl e).
Proof.
  intros H.
  destruct (H infeasible_solver joint_coe_1 [1%Q] [1%Q] [0%Q; 1%Q] [0%Q; 1%Q]
              valid_bell_input_1) as [e He].
  - intros c _. discriminate.
  - rewrite (bell_inequality_max_solve permutation_operator_model
               permutation_operator_model_shape _ _ _ _ _ valid_bell_input_1) in He.
    discriminate He.
Qed.

(** * Further properties of the code *)

(** ** [positive_semidefinite_rank]: validation *)

(** The nonnegativity test comes first: a matrix with a negative entry
    raises "Matrix must be nonnegative." whatever its shape, and "Matrix
    must be square." is raised only for a nonnegative matrix. *)
Theorem psd_rank_error_precedence (mat : ndarray) (max_rank : Z) :
  ((∃ r q, r ∈ rows mat ∧ q ∈ r ∧ (q < 0)%Q) →
   positive_semidefinite_rank mat max_rank
   = Raise (ValueError "Matrix must be nonnegative."))
  ∧ (positive_semidefinite_rank mat max_rank = Raise (ValueError "Matrix must be square.")
     ↔ np_all_ge0 mat = true ∧ nrows mat ≠ ncols mat).
Proof.
  unfold positive_semidefinite_rank, is_square. split.
  - intros Hneg%np_all_ge0_false. by rewrite Hneg.
  - destruct (np_all_ge0 mat); simpl.
    + destruct (Nat.eqb_spec (nrows mat) (ncols mat)) as [Heq|Hne]; simpl.
      * split; [|by intros [_ ?]]. intros Hr. exfalso. revert Hr.
        generalize (rangeZ 1 (max_rank + 1)). intros [|k ks]; [done|].
        cbn [rank_search].
        rewrite check_psd_rank_square by (by apply Nat.eqb_eq). done.
      * by split.
    + split; [done|by intros [? _]].
Qed.

Lemma psd_rank_error_precedence_witness :
  positive_semidefinite_rank
    {| nrows := 1; ncols := 2; rows := [[1; -1]]%Q |} 10
  = Raise (ValueError "Matrix must be nonnegative.").
Proof.
  apply (psd_rank_error_precedence {| nrows := 1; ncols := 2; rows := [[1; -1]]%Q |} 10).
  exists [1; -1]%Q, (-1)%Q. split; [constructor|]. split; [repeat constructor|reflexivity].
Defined.

(** ** [positive_semidefinite_rank]: the search *)

Lemma feasible_at_true (slv : solver) (mat : ndarray) (k : Z) :
  feasible_at slv mat k = true ↔
  status (slv (psd_call (psd_problem mat k))) = OPTIMAL
  ∧ objval_lt (value (slv (psd_call (psd_problem mat k)))) float_1e_6.
Proof.
  unfold feasible_at.
  by rewrite andb_true_iff, bool_decide_eq_true, objval_ltb_lt.
Qed.

Lemma run_rank_search_cases (slv : solver) (mat : ndarray) (ks : list Z) :
  is_square mat = true →
  (Forall (λ k, feasible_at slv mat k = false) ks
   ∧ run slv (rank_search mat ks)
     = (inr None, map (λ k, psd_call (psd_problem mat k)) ks))
  ∨ (∃ l1 k l2, ks = l1 ++ k :: l2
       ∧ Forall (λ j, feasible_at slv mat j = false) l1
       ∧ feasible_at slv mat k = true
       ∧ run slv (rank_search mat ks)
         = (inr (Some k), map (λ k, psd_call (psd_problem mat k)) (l1 ++ [k]))).
Proof.
  intros Hsq. induction ks as [|k ks IH].
  - left. by split.
  - destruct (feasible_at slv mat k) eqn:Hk.
    + right. exists [], k, ks. split; [done|]. split; [constructor|]. split; [done|].
      by apply (run_rank_search_found slv mat [] ks k).
    + destruct IH as [[Hall Hrun]|(l1 & k' & l2 & -> & Hl1 & Hk' & Hrun)].
      * left. split; [by constructor|].
        apply run_rank_search_none; [done|by constructor].
      * right. exists (k :: l1), k', l2. split; [done|].
        split; [by constructor|]. split; [done|].
        apply (run_rank_search_found slv mat (k :: l1) l2 k'); [done| |done].
        by constructor.
Qed.

Lemma seqZ_split (m n : Z) (l1 l2 : list Z) (k : Z) :
  seqZ m n = l1 ++ k :: l2 →
  l1 = seqZ m (k - m) ∧ (m ≤ k < m + n)%Z.
Proof.
  intros Heq.
  assert (Hk : seqZ m n !! length l1 = Some k) by (rewrite Heq; apply list_lookup_middle; done).
  apply lookup_seqZ in Hk as [-> Hlt]. split; [|lia].
  replace (m + Z.of_nat (length l1) - m)%Z with (Z.of_nat (length l1)) by lia.
  assert (Ht : l1 = take (length l1) (seqZ m n)) by (by rewrite Heq, take_app_length).
  rewrite Ht at 1.
  replace n with (Z.of_nat (length l1) + (n - Z.of_nat (length l1)))%Z at 1 by lia.
  rewrite seqZ_app by lia.
  rewrite take_app_length'; [done|]. by rewrite length_seqZ, Nat2Z.id.
Qed.

(** What the search returns is certified by the solver's answers. On a
    matrix with at least one row, when [positive_semidefinite_rank] returns
    [k], then [k] lies in [1..max_rank], the solver answered its problem
    optimal with a value below the float [1e-6], it did not do so for any
    smaller candidate, and it was asked exactly the problems of
    [1, ..., k]; when it returns [None], no candidate of [1..max_rank] was
    accepted and all of them were asked. *)
Theorem psd_rank_certified (slv : solver) (mat : ndarray) (max_rank : Z)
    (r : option Z) (t : list solve_call) :
  0 < nrows mat →
  run slv (positive_semidefinite_rank mat max_rank) = (inr r, t) →
  let call k := psd_call (psd_problem mat k) in
  let accepted k :=
    status (slv (call k)) = OPTIMAL
    ∧ objval_lt (value (slv (call k))) float_1e_6 in
  t = map call (rangeZ 1 (match r with Some k => k + 1 | None => max_rank + 1 end)%Z)
  ∧ match r with
    | Some k => (1 ≤ k ≤ max_rank)%Z ∧ accepted k
                ∧ ∀ j, (1 ≤ j < k)%Z → ¬ accepted j
    | None => ∀ k, (1 ≤ k ≤ max_rank)%Z → ¬ accepted k
    end.
Proof.
  intros _ Hrun call accepted. revert Hrun.
  unfold positive_semidefinite_rank.
  destruct (np_all_ge0 mat); [|done]. destruct (is_square mat) eqn:Hsq; [|done].
  cbn [negb].
  unfold rangeZ at 1. replace (max_rank + 1 - 1)%Z with max_rank by lia.
  destruct (run_rank_search_cases slv mat (seqZ 1 max_rank) Hsq)
    as [[Hall ->]|(l1 & k & l2 & Hks & Hl1 & Hk & ->)].
  - intros [= <- <-]. split.
    + unfold rangeZ. by replace (max_rank + 1 - 1)%Z with max_rank by lia.
    + intros k Hk Hacc%feasible_at_true.
      rewrite Forall_seqZ in Hall. rewrite Hall in Hacc by lia. done.
  - intros [= <- <-]. destruct (seqZ_split _ _ _ _ _ Hks) as [-> Hrange]. split.
    + f_equal. unfold rangeZ.
      replace (k + 1 - 1)%Z with ((k - 1) + 1)%Z by lia.
      rewrite seqZ_app by lia. f_equal.
      rewrite seqZ_cons by lia. rewrite seqZ_nil by lia. f_equal. lia.
    + split; [lia|]. split; [by apply feasible_at_true|].
      intros j Hj Hacc%feasible_at_true.
      rewrite Forall_seqZ in Hl1. rewrite Hl1 in Hacc by lia. done.
Qed.

Lemma psd_rank_certified_witness :
  status (threshold_solver 2 (psd_call (psd_problem (np_eye 2) 2))) = OPTIMAL
  ∧ objval_lt (value (threshold_solver 2 (psd_call (psd_problem (np_eye 2) 2))))
      float_1e_6.
Proof.
  destruct (psd_rank_certified (threshold_solver 2) (np_eye 2) 10 (Some 2%Z)
              (map (λ k, psd_call (psd_problem (np_eye 2) k)) [1; 2]%Z))
    as (_ & _ & Hacc & _); [simpl; lia|reflexivity|exact Hacc].
Defined.

(** A rank found within [max_rank] is found again, after the same solver
    calls, with any larger [max_rank]. *)
Theorem psd_rank_stable (slv : solver) (mat : ndarray) (max_rank max_rank' : Z)
    (k : Z) (t : list solve_call) :
  run slv (positive_semidefinite_rank mat max_rank) = (inr (Some k), t) →
  (max_rank ≤ max_rank')%Z →
  run slv (positive_semidefinite_rank mat max_rank') = (inr (Some k), t).
Proof.
  unfold positive_semidefinite_rank, rangeZ.
  destruct (np_all_ge0 mat); [|done]. destruct (is_square mat) eqn:Hsq; [|done].
  cbn [negb]. intros Hrun Hle.
  replace (max_rank + 1 - 1)%Z with max_rank in Hrun by lia.
  replace (max_rank' + 1 - 1)%Z with max_rank' by lia.
  destruct (run_rank_search_cases slv mat (seqZ 1 max_rank) Hsq)
    as [[_ Hnone]|(l1 & k' & l2 & Hks & Hl1 & Hk' & Hfound)].
  - rewrite Hnone in Hrun. discriminate.
  - rewrite Hfound in Hrun. injection Hrun as <- <-.
    destruct (seqZ_split _ _ _ _ _ Hks) as [_ Hrange].
    replace max_rank' with (max_rank + (max_rank' - max_rank))%Z by lia.
    rewrite seqZ_app by lia. rewrite Hks, <- app_assoc. cbn [app].
    by apply run_rank_search_found.
Qed.

Lemma psd_rank_stable_witness :
  run (threshold_solver 2) (positive_semidefinite_rank (np_eye 2) 10)
  = (inr (Some 2%Z), map (λ k, psd_call (psd_problem (np_eye 2) k)) [1; 2]%Z).
Proof.
  apply (psd_rank_stable (threshold_solver 2) (np_eye 2) 2 10); [reflexivity|lia].
Defined.

(** Whatever the matrix, the bound and the solver, the calls made are an
    initial segment of the problems of [k = 1, 2, ..., max_rank], each sent
    to SCS with [eps = 1e-8]: never more than [max_rank] calls, none out of
    order, none repeated. *)
Theorem psd_rank_calls_prefix (slv : solver) (mat : ndarray) (max_rank : Z) :
  let t := (run slv (positive_semidefinite_rank mat max_rank)).2 in
  t `prefix_of` map (λ k, psd_call (psd_problem mat k)) (rangeZ 1 (max_rank + 1))
  ∧ length t ≤ Z.to_nat max_rank
  ∧ Forall (λ c, call_solver c = "SCS" ∧ call_eps c = Some (1 # 100000000)%Q) t.
Proof.
  intros t.
  assert (Hp : t `prefix_of`
                 map (λ k, psd_call (psd_problem mat k)) (rangeZ 1 (max_rank + 1))).
  { subst t. unfold positive_semidefinite_rank.
    destruct (np_all_ge0 mat); [|apply prefix_nil].
    destruct (is_square mat) eqn:Hsq; [|apply prefix_nil]. cbn [negb].
    destruct (run_rank_search_cases slv mat (rangeZ 1 (max_rank + 1)) Hsq)
      as [[_ ->]|(l1 & k & l2 & -> & _ & _ & ->)]; [done|].
    cbn [snd]. rewrite !map_app. apply prefix_app. cbn [map].
    apply prefix_cons, prefix_nil. }
  split; [done|]. split.
  - apply prefix_length in Hp. rewrite length_map in Hp. unfold rangeZ in Hp.
    rewrite length_seqZ in Hp. lia.
  - destruct Hp as [rest Hp]. apply (f_equal (Forall (λ c, call_solver c = "SCS"
      ∧ call_eps c = Some (1 # 100000000)%Q))) in Hp.
    assert (Hall : Forall (λ c, call_solver c = "SCS" ∧ call_eps c = Some (1 # 100000000)%Q)
                     (map (λ k, psd_call (psd_problem mat k)) (rangeZ 1 (max_rank + 1)))).
    { apply Forall_forall. by intros c (k & -> & _)%list_elem_of_fmap. }
    rewrite Hp in Hall. by apply Forall_app in Hall as [? _].
Qed.

(** ** [_check_psd_rank] on a matrix that is not square *)

Lemma for_each_raise {I S} (l1 l2 : list I) (i : I) (body : I → S → prog S)
    (s s1 : S) (e : exn) :
  for_each l1 body s = Ret s1 → body i s1 = Raise e →
  for_each (l1 ++ i :: l2) body s = Raise e.
Proof.
  intros H1 Hi. rewrite (for_each_app l1 (i :: l2) body s s1 H1).
  simpl. by rewrite Hi.
Qed.

Lemma psd_block_row_inside (mat : ndarray) (i : nat) (js : list nat) (cs : list constraint) :
  i < nrows mat → i < ncols mat →
  Forall (λ j, j < nrows mat ∧ j < ncols mat) js →
  for_each js (λ j constraints,
      do xij <- var_index (nrows mat) (ncols mat) (x_var_of mat) i j ;
      do xji <- var_index (nrows mat) (ncols mat) (x_var_of mat) j i ;
      Ret (constraints ++
           [CPsd (EBmat2 xij (ENum (get mat i j)) (ENum (get mat i j)) xji)])) cs
  = Ret (cs ++ map (psd_block mat i) js).
Proof.
  intros Hi Hi' Hjs. revert cs.
  induction Hjs as [|j js [Hj Hj'] _ IH]; intros cs; simpl.
  - by rewrite app_nil_r.
  - unfold var_index at 1 2.
    assert ((i <? nrows mat) = true) as -> by (by apply Nat.ltb_lt).
    assert ((j <? ncols mat) = true) as -> by (by apply Nat.ltb_lt).
    assert ((j <? nrows mat) = true) as -> by (by apply Nat.ltb_lt).
    assert ((i <? ncols mat) = true) as -> by (by apply Nat.ltb_lt).
    simpl. rewrite IH. by rewrite <- app_assoc.
Qed.

Lemma psd_block_rows_inside (mat : ndarray) (ixs : list nat) (cs : list constraint) :
  ncols mat ≤ nrows mat →
  Forall (λ i, i < ncols mat) ixs →
  for_each ixs (λ i, for_each (seq 0 (ncols mat)) (λ j constraints,
      do xij <- var_index (nrows mat) (ncols mat) (x_var_of mat) i j ;
      do xji <- var_index (nrows mat) (ncols mat) (x_var_of mat) j i ;
      Ret (constraints ++
           [CPsd (EBmat2 xij (ENum (get mat i j)) (ENum (get mat i j)) xji)]))) cs
  = Ret (cs ++ flat_map (λ i, map (psd_block mat i) (seq 0 (ncols mat))) ixs).
Proof.
  intros Hle Hrows. revert cs.
  induction Hrows as [|i ixs Hi _ IH]; intros cs; simpl.
  - by rewrite app_nil_r.
  - rewrite psd_block_row_inside; [|lia|lia|].
    + simpl. rewrite IH. by rewrite <- app_assoc.
    + apply Forall_forall. intros j Hj%elem_of_seq. lia.
Qed.

(** The checker relies on the square shape: on a matrix with more columns
    than rows, or more rows than columns, the entry [x_var[j, i]] of some
    block lies outside the variable, the construction of the constraints
    raises [IndexError], and the solver is not called. *)
Theorem check_psd_rank_not_square (mat : ndarray) (k : Z) :
  0 < nrows mat → 0 < ncols mat → nrows mat ≠ ncols mat →
  _check_psd_rank mat k = Raise IndexError.
Proof.
  intros Hm Hn Hne. unfold _check_psd_rank.
  enough (psd_block_constraints mat = Raise IndexError) as -> by done.
  unfold psd_block_constraints, range. rewrite !Nat.sub_0_r.
  set (m := nrows mat) in *. set (n := ncols mat) in *.
  destruct (decide (m < n)) as [Hlt|Hge].
  - (* the first row fails at column [m] *)
    destruct m as [|m'] eqn:Em; [lia|]. rewrite <- Em in *.
    replace (seq 0 m) with (0 :: seq 1 m') by (rewrite Em; done).
    cbn [for_each].
    replace n with (m + (n - m)) at 1 by lia. rewrite seq_app.
    destruct (n - m) as [|d] eqn:Ed; [lia|]. cbn [seq].
    erewrite for_each_raise; [done| |].
    + subst m n. apply psd_block_row_inside; [lia|lia|].
      apply Forall_forall. intros j Hj%elem_of_seq. lia.
    + unfold var_index.
      assert ((0 <? m) = true) as -> by (apply Nat.ltb_lt; lia).
      assert ((0 + m <? n) = true) as -> by (apply Nat.ltb_lt; lia).
      assert ((0 + m <? m) = false) as -> by (apply Nat.ltb_ge; lia).
      done.
  - (* the row [n] fails at its first column *)
    assert (Hgt : n < m) by lia.
    replace m with (n + (m - n)) at 1 by lia. rewrite seq_app.
    destruct (m - n) as [|d] eqn:Ed; [lia|]. cbn [seq].
    erewrite for_each_raise; [done| |].
    + subst m n. apply psd_block_rows_inside; [lia|].
      apply Forall_forall. intros i Hi%elem_of_seq. lia.
    + destruct n as [|n'] eqn:En; [lia|]. rewrite <- En in *.
      replace (seq 0 n) with (0 :: seq 1 n') by (rewrite En; done).
      cbn [for_each]. unfold var_index.
      assert ((0 + n <? m) = true) as -> by (apply Nat.ltb_lt; lia).
      assert ((0 <? n) = true) as -> by (apply Nat.ltb_lt; lia).
      assert ((0 <? m) = true) as -> by (apply Nat.ltb_lt; lia).
      assert ((0 + n <? n) = false) as -> by (apply Nat.ltb_ge; lia).
      done.
Qed.

Lemma check_psd_rank_not_square_witness :
  _check_psd_rank mat_2x3 1 = Raise IndexError
  ∧ _check_psd_rank mat_3x2 1 = Raise IndexError.
Proof.
  split; apply check_psd_rank_not_square; simpl; lia.
Defined.

(** ** [bell_inequality_max]: which inputs reach the solver *)

Lemma bind_ret_inv {A B} (p : prog A) (f : A → prog B) (b : B) :
  bind p f = Ret b → ∃ a, p = Ret a ∧ f a = Ret b.
Proof. destruct p as [a| |]; simpl; [eauto|done..]. Qed.

Lemma for_each_ret_inv {I S} (l : list I) (body : I → S → prog S) (s s' : S) :
  for_each l body s = Ret s' →
  ∀ i, i ∈ l → ∃ s0 s1, body i s0 = Ret s1.
Proof.
  revert s. induction l as [|j l IH]; intros s Hrun i Hi.
  - by apply elem_of_nil in Hi.
  - cbn [for_each] in Hrun. apply bind_ret_inv in Hrun as (s1 & Hj & Hrest).
    apply elem_of_cons in Hi as [->|Hi]; [eauto|]. by eapply IH.
Qed.

Lemma for_each_ret_or_raise {I S} (P : S → Prop) (e : exn) (l : list I)
    (body : I → S → prog S) (s : S) :
  (∀ i s, i ∈ l → P s → (∃ s', body i s = Ret s' ∧ P s') ∨ body i s = Raise e) →
  P s →
  (∃ s', for_each l body s = Ret s' ∧ P s') ∨ for_each l body s = Raise e.
Proof.
  revert s. induction l as [|i l IH]; intros s Hbody Hs; [left; eauto|].
  cbn [for_each]. destruct (Hbody i s) as [(s1 & -> & Hs1)| ->]; [left|done| |by right].
  cbn [bind]. apply IH; [|done]. intros j s2 Hj. apply Hbody. by right.
Qed.

Lemma getitem_ret_inv (A : ndarray) (i j : nat) (q : Q) :
  getitem A i j = Ret q → i < nrows A ∧ j < ncols A.
Proof.
  unfold getitem. destruct (i <? nrows A) eqn:Hi; destruct (j <? ncols A) eqn:Hj;
    simpl; try done.
  intros _. by apply Nat.ltb_lt in Hi, Hj.
Qed.

Lemma getitem_ret_or_index (A : ndarray) (i j : nat) :
  (∃ q, getitem A i j = Ret q) ∨ getitem A i j = Raise IndexError.
Proof. unfold getitem. destruct (_ && _); eauto. Qed.

Lemma bell_coefficient_ret_inv (joint_coe a_coe b_coe a_val b_val : ndarray)
    (a b x y : nat) (c : Q) :
  bell_coefficient joint_coe a_coe b_coe a_val b_val a b x y = Ret c →
  y - 1 < ncols joint_coe
  ∧ (y = 1 → x - 1 < nrows a_coe)
  ∧ (x = 1 → y - 1 < nrows b_coe).
Proof.
  unfold bell_coefficient. intros H.
  apply bind_ret_inv in H as (j & [_ Hj]%getitem_ret_inv & H).
  apply bind_ret_inv in H as (av & _ & H).
  apply bind_ret_inv in H as (bv & _ & H).
  apply bind_ret_inv in H as (c1 & Hy & Hx).
  split; [done|]. split.
  - intros ->. cbn [Nat.eqb] in Hy.
    by apply bind_ret_inv in Hy as (ac & [? _]%getitem_ret_inv & _).
  - intros ->. cbn [Nat.eqb] in Hx.
    by apply bind_ret_inv in Hx as (bc & [? _]%getitem_ret_inv & _).
Qed.

Lemma bell_coefficient_ret_or_index (joint_coe a_coe b_coe a_val b_val : ndarray)
    (a b x y : nat) :
  (∃ c, bell_coefficient joint_coe a_coe b_coe a_val b_val a b x y = Ret c)
  ∨ bell_coefficient joint_coe a_coe b_coe a_val b_val a b x y = Raise IndexError.
Proof.
  unfold bell_coefficient.
  destruct (getitem_ret_or_index joint_coe (x - 1) (y - 1)) as [[j ->]| ->]; [|by right].
  cbn [bind].
  destruct (getitem_ret_or_index a_val a 0) as [[av Hav]|Hav]; rewrite Hav; [|by right].
  cbn [bind].
  destruct (getitem_ret_or_index b_val b 0) as [[bv Hbv]|Hbv]; rewrite Hbv; [|by right].
  cbn [bind].
  destruct (y =? 1).
  - destruct (getitem_ret_or_index a_coe (x - 1) 0) as [[ac ->]| ->]; [|by right].
    cbn [bind]. rewrite ?Hav. cbn [bind].
    destruct (x =? 1); [|eauto].
    destruct (getitem_ret_or_index b_coe (y - 1) 0) as [[bc ->]| ->]; [|by right].
    cbn [bind]. rewrite ?Hbv. cbn [bind]. eauto.
  - cbn [bind]. destruct (x =? 1); [|eauto].
    destruct (getitem_ret_or_index b_coe (y - 1) 0) as [[bc ->]| ->]; [|by right].
    cbn [bind]. rewrite ?Hbv. cbn [bind]. eauto.
Qed.

Lemma fold_left_ext_in {A S} (f g : S → A → S) (l : list A) (s : S) :
  (∀ s a, a ∈ l → f s a = g s a) → fold_left f l s = fold_left g l s.
Proof.
  revert s. induction l as [|a l IH]; intros s H; simpl; [done|].
  rewrite H by left. apply IH. intros s' a' Ha'. apply H. by right.
Qed.

Lemma elem_of_bell_terms (m a b x y : nat) :
  (a, b, x, y) ∈ bell_terms m → a < 2 ∧ b < 2 ∧ 1 ≤ x ≤ m ∧ 1 ≤ y ≤ m.
Proof.
  unfold bell_terms. rewrite list_elem_of_In.
  intros (a' & Ha & H)%in_flat_map. apply in_flat_map in H as (b' & Hb & H).
  apply in_flat_map in H as (x' & Hx & H). apply in_map_iff in H as (y' & [= -> -> -> ->] & Hy).
  apply in_seq in Hx, Hy.
  assert (a < 2) by (destruct Ha as [<-|[<-|[]]]; lia).
  assert (b < 2) by (destruct Hb as [<-|[<-|[]]]; lia).
  lia.
Qed.

Lemma bind_solve_free {A B} (p : prog A) (f : A → prog B) :
  solve_free p → (∀ a, solve_free (f a)) → solve_free (bind p f).
Proof. intros Hp Hf. destruct p; simpl; [apply Hf|done|done]. Qed.

Lemma for_each_solve_free {I S} (l : list I) (body : I → S → prog S) (s : S) :
  (∀ i s, solve_free (body i s)) → solve_free (for_each l body s).
Proof.
  intros Hb. revert s. induction l as [|i l IH]; intros s; simpl; [done|].
  by apply bind_solve_free.
Qed.

Lemma getitem_solve_free (A : ndarray) (i j : nat) : solve_free (getitem A i j).
Proof. unfold getitem. by destruct (_ && _). Qed.

Lemma list_setitem_solve_free {A} (l : list A) (i : nat) (x : A) :
  solve_free (list_setitem l i x).
Proof. unfold list_setitem. by destruct (_ <? _). Qed.

Lemma np_add_solve_free (A B : ndarray) : solve_free (np_add A B).
Proof. unfold np_add. by case_bool_decide. Qed.

Lemma bell_coefficient_solve_free (joint_coe a_coe b_coe a_val b_val : ndarray)
    (a b x y : nat) :
  solve_free (bell_coefficient joint_coe a_coe b_coe a_val b_val a b x y).
Proof.
  unfold bell_coefficient.
  repeat (apply bind_solve_free; [try apply getitem_solve_free|intros ?]).
  - destruct (y =? 1); [|done].
    repeat (apply bind_solve_free; [apply getitem_solve_free|intros ?]). done.
  - destruct (x =? 1); [|done].
    repeat (apply bind_solve_free; [apply getitem_solve_free|intros ?]). done.
Qed.

(** ** [bell_inequality_max]: the sizes of the coefficient tables *)

Section BellExtras.

Variable permutation_operator : list nat → list nat → bool → bool → ndarray.

(** The permutation operator acts on the full tensor space. *)
Hypothesis permutation_operator_shape : ∀ dims perm inv_perm is_sparse,
  shape (permutation_operator dims perm inv_perm is_sparse)
  = (dim_prod dims, dim_prod dims).

Lemma bell_coefficient_cover (joint_coe : ndarray) (a_coe b_coe a_val b_val : list Q)
    (a b x y : nat) :
  length a_val = 2 → length b_val = 2 →
  bell_tables_cover joint_coe a_coe b_coe →
  a < 2 → b < 2 → 1 ≤ x ≤ nrows joint_coe → 1 ≤ y ≤ nrows joint_coe →
  bell_coefficient joint_coe (reshape_col a_coe) (reshape_col b_coe)
    (reshape_col a_val) (reshape_col b_val) a b x y
  = Ret (bell_coeff joint_coe a_coe b_coe a_val b_val a b x y).
Proof.
  intros Hav Hbv (Hc & Hac & Hbc) Ha Hb Hx Hy.
  unfold bell_coefficient, bell_coeff, getitem.
  in_bounds. cbn [bind]. rewrite !get_reshape_col.
  destruct (y =? 1); destruct (x =? 1); cbn [bind]; by rewrite ?get_reshape_col.
Qed.

Lemma bell_objective_loop_cover (joint_coe : ndarray) (a_coe b_coe a_val b_val : list Q) :
  length a_val = 2 → length b_val = 2 →
  bell_tables_cover joint_coe a_coe b_coe →
  bell_objective_loop permutation_operator joint_coe (reshape_col a_coe)
    (reshape_col b_coe) (reshape_col a_val) (reshape_col b_val) (nrows joint_coe)
  = Ret (bell_operator permutation_operator joint_coe a_coe b_coe a_val b_val
           (nrows joint_coe)).
Proof.
  intros Hav Hbv Hcover. set (m := nrows joint_coe).
  set (P := λ s : ndarray, shape s = (2 ^ (2 * m + 2), 2 ^ (2 * m + 2))).
  set (st := λ (acc : ndarray) (t : nat * nat * nat * nat),
         let '(a, b, x, y) := t in
         mat_add acc
           (np_scale (bell_coeff joint_coe a_coe b_coe a_val b_val a b x y)
              (np_kron (measurement_operator permutation_operator m a x)
                       (measurement_operator permutation_operator m b y)))).
  assert (Hy : ∀ a b x, a < 2 → b < 2 → 1 ≤ x ≤ m → ∀ y s,
    y ∈ range 1 (m + 1) → P s →
    (do b_coeff <- bell_coefficient joint_coe (reshape_col a_coe)
                     (reshape_col b_coe) (reshape_col a_val) (reshape_col b_val) a b x y ;
     do Ma <- MN_matrix permutation_operator m a x ;
     do Nb <- MN_matrix permutation_operator m b y ;
     np_add s (np_scale b_coeff (np_kron Ma Nb))) = Ret (st s (a, b, x, y))
    ∧ P (st s (a, b, x, y))).
  { intros a b x Ha Hb Hx y s Hy%elem_of_seq Hs.
    rewrite bell_coefficient_cover by (done || (fold m; lia)). cbn [bind].
    rewrite !(MN_matrix_ret permutation_operator permutation_operator_shape) by lia. cbn [bind].
    unfold np_add. rewrite bool_decide_eq_true_2; [done|].
    rewrite Hs. unfold shape, np_scale, np_kron. cbn [nrows ncols tabulate].
    f_equal; symmetry; exact (pow2_square m). }
  set (f3 := λ a b (s : ndarray) x,
         fold_left (λ s y, st s (a, b, x, y)) (range 1 (m + 1)) s).
  set (f2 := λ a (s : ndarray) b, fold_left (f3 a b) (range 1 (m + 1)) s).
  set (f1 := λ (s : ndarray) a, fold_left (f2 a) (range 0 2) s).
  assert (H3 : ∀ a b, a < 2 → b < 2 → ∀ x s, x ∈ range 1 (m + 1) → P s →
    for_each (range 1 (m + 1)) (λ y obj_mat,
      do b_coeff <- bell_coefficient joint_coe (reshape_col a_coe)
                      (reshape_col b_coe) (reshape_col a_val) (reshape_col b_val) a b x y ;
      do Ma <- MN_matrix permutation_operator m a x ;
      do Nb <- MN_matrix permutation_operator m b y ;
      np_add obj_mat (np_scale b_coeff (np_kron Ma Nb))) s
    = Ret (f3 a b s x) ∧ P (f3 a b s x)).
  { intros a b Ha Hb x s Hx%elem_of_seq Hs.
    apply (for_each_ret P); [|done]. apply Hy; lia. }
  assert (H2 : ∀ a, a < 2 → ∀ b s, b ∈ range 0 2 → P s →
    for_each (range 1 (m + 1)) (λ x,
      for_each (range 1 (m + 1)) (λ y obj_mat,
        do b_coeff <- bell_coefficient joint_coe (reshape_col a_coe)
                        (reshape_col b_coe) (reshape_col a_val) (reshape_col b_val) a b x y ;
        do Ma <- MN_matrix permutation_operator m a x ;
        do Nb <- MN_matrix permutation_operator m b y ;
        np_add obj_mat (np_scale b_coeff (np_kron Ma Nb)))) s
    = Ret (f2 a s b) ∧ P (f2 a s b)).
  { intros a Ha b s Hb%elem_of_seq Hs.
    apply (for_each_ret P); [|done]. apply H3; lia. }
  assert (H1 : ∀ a s, a ∈ range 0 2 → P s →
    for_each (range 0 2) (λ b,
      for_each (range 1 (m + 1)) (λ x,
        for_each (range 1 (m + 1)) (λ y obj_mat,
          do b_coeff <- bell_coefficient joint_coe (reshape_col a_coe)
                          (reshape_col b_coe) (reshape_col a_val) (reshape_col b_val) a b x y ;
          do Ma <- MN_matrix permutation_operator m a x ;
          do Nb <- MN_matrix permutation_operator m b y ;
          np_add obj_mat (np_scale b_coeff (np_kron Ma Nb))))) s
    = Ret (f1 s a) ∧ P (f1 s a)).
  { intros a s Ha%elem_of_seq Hs.
    apply (for_each_ret P); [|done]. apply H2; lia. }
  unfold bell_objective_loop. fold m.
  destruct (for_each_ret P (range 0 2) _ f1
              (np_zeros (2 ^ (2 * m + 2)) (2 ^ (2 * m + 2))) H1 eq_refl) as [Heq _].
  etransitivity; [exact Heq|]. clear Heq.
  f_equal. unfold bell_operator, bell_terms.
  assert (Hr : range 1 (m + 1) = seq 1 m) by (unfold range; f_equal; lia).
  rewrite fold_left_flat_map. apply fold_left_ext. intros s a.
  rewrite fold_left_flat_map. apply fold_left_ext. intros s' b.
  rewrite fold_left_flat_map. unfold f2. rewrite Hr.
  apply fold_left_ext. intros s'' x.
  unfold f3. by rewrite Hr, fold_left_map.
Qed.

Lemma bell_solve_cover (joint_coe : ndarray) (a_coe b_coe a_val b_val : list Q) :
  length a_val = 2 → length b_val = 2 →
  bell_tables_cover joint_coe a_coe b_coe →
  bell_inequality_max permutation_operator joint_coe a_coe b_coe a_val b_val
  = Solve (bell_solver_call permutation_operator joint_coe a_coe b_coe a_val b_val)
      (λ s, Ret (value s)).
Proof.
  intros Hav Hbv Hcover. unfold bell_inequality_max, bell_solver_call.
  rewrite bell_objective_loop_cover by done.
  rewrite Hav, Hbv. cbn [Nat.eqb negb orb bind].
  rewrite symmetrize_ret; [done|].
  pose proof (bell_operator_shape permutation_operator joint_coe a_coe b_coe a_val b_val
                (nrows joint_coe)) as Hs.
  unfold shape in Hs. congruence.
Qed.

Lemma bell_operator_agree (J1 J2 : ndarray) (a1 a2 b1 b2 a_val b_val : list Q) (m : nat) :
  (∀ i k, i < m → k < m → get J1 i k = get J2 i k) →
  (∀ i, i < m → vget a1 i = vget a2 i) →
  (∀ i, i < m → vget b1 i = vget b2 i) →
  bell_operator permutation_operator J1 a1 b1 a_val b_val m
  = bell_operator permutation_operator J2 a2 b2 a_val b_val m.
Proof.
  intros HJ Ha Hb. unfold bell_operator. apply fold_left_ext_in.
  intros acc [[[a b] x] y] (_ & _ & Hx & Hy)%elem_of_bell_terms.
  do 2 f_equal. unfold bell_coeff.
  by rewrite HJ, Ha, Hb by lia.
Qed.

(** With [m >= 1] rows in [joint_coe], the only sizes the function needs
    are two outcome values per party
    and tables that reach the [m] rows of [joint_coe]: it does not ask for
    a square [joint_coe] nor for marginal tables of length [m]. With at
    least [m] columns and [m] marginal coefficients per party it reaches
    the solver, and the columns and the coefficients beyond the first [m]
    do not influence the call: two inputs that agree on the leading
    [m × m] block and on the first [m] marginal coefficients are the same
    computation. *)
Theorem bell_ignores_extra_entries (J1 J2 : ndarray) (a1 a2 b1 b2 a_val b_val : list Q) :
  length a_val = 2 → length b_val = 2 →
  bell_tables_cover J1 a1 b1 → bell_tables_cover J2 a2 b2 →
  1 ≤ nrows J1 → nrows J1 = nrows J2 →
  (∀ i k, i < nrows J1 → k < nrows J1 → get J1 i k = get J2 i k) →
  (∀ i, i < nrows J1 → vget a1 i = vget a2 i) →
  (∀ i, i < nrows J1 → vget b1 i = vget b2 i) →
  bell_inequality_max permutation_operator J1 a1 b1 a_val b_val
  = bell_inequality_max permutation_operator J2 a2 b2 a_val b_val
  ∧ ∃ c, bell_inequality_max permutation_operator J1 a1 b1 a_val b_val
         = Solve c (λ s, Ret (value s)).
Proof.
  intros Hav Hbv Hc1 Hc2 _ Hrows HJ Ha Hb.
  rewrite !bell_solve_cover by done. split; [|eauto].
  unfold bell_solver_call. rewrite <- Hrows.
  by rewrite (bell_operator_agree J1 J2 a1 a2 b1 b2 a_val b_val (nrows J1)).
Qed.


Lemma bell_objective_loop_ret_or_index (joint_coe a_coe b_coe a_val b_val : ndarray)
    (m : nat) :
  (∃ M, bell_objective_loop permutation_operator joint_coe a_coe b_coe a_val b_val m
        = Ret M)
  ∨ bell_objective_loop permutation_operator joint_coe a_coe b_coe a_val b_val m
    = Raise IndexError.
Proof.
  set (P := λ s : ndarray, shape s = (2 ^ (2 * m + 2), 2 ^ (2 * m + 2))).
  unfold bell_objective_loop.
  destruct (for_each_ret_or_raise P IndexError (range 0 2)
    (λ a, for_each (range 0 2) (λ b,
      for_each (range 1 (m + 1)) (λ x,
        for_each (range 1 (m + 1)) (λ y obj_mat,
          do b_coeff <- bell_coefficient joint_coe a_coe b_coe a_val b_val a b x y ;
          do Ma <- MN_matrix permutation_operator m a x ;
          do Nb <- MN_matrix permutation_operator m b y ;
          np_add obj_mat (np_scale b_coeff (np_kron Ma Nb))))))
    (np_zeros (2 ^ (2 * m + 2)) (2 ^ (2 * m + 2)))) as [(M & HM & _)|Hr];
    [|done|left; by exists M|by right].
  intros a s _ Hs. apply (for_each_ret_or_raise P); [|done].
  intros b s1 _ Hs1. apply (for_each_ret_or_raise P); [|done].
  intros x s2 Hx%elem_of_seq Hs2. apply (for_each_ret_or_raise P); [|done].
  intros y s3 Hy%elem_of_seq Hs3.
  destruct (bell_coefficient_ret_or_index joint_coe a_coe b_coe a_val b_val a b x y)
    as [[c ->]| ->]; [|by right].
  left. cbn [bind].
  rewrite !(MN_matrix_ret permutation_operator permutation_operator_shape) by lia.
  cbn [bind]. unfold np_add. rewrite bool_decide_eq_true_2.
  - eexists. split; [done|]. exact Hs3.
  - rewrite Hs3. unfold shape, np_scale, np_kron. cbn [nrows ncols tabulate].
    f_equal; symmetry; exact (pow2_square m).
Qed.

Lemma bell_objective_loop_ret_inv (joint_coe a_coe b_coe a_val b_val : ndarray)
    (m : nat) (M : ndarray) (x y : nat) :
  bell_objective_loop permutation_operator joint_coe a_coe b_coe a_val b_val m = Ret M →
  1 ≤ x ≤ m → 1 ≤ y ≤ m →
  y - 1 < ncols joint_coe
  ∧ (y = 1 → x - 1 < nrows a_coe)
  ∧ (x = 1 → y - 1 < nrows b_coe).
Proof.
  unfold bell_objective_loop. intros H Hx Hy.
  apply for_each_ret_inv with (i := 0) in H as (s0 & s0' & H); [|apply elem_of_seq; lia].
  apply for_each_ret_inv with (i := 0) in H as (s1 & s1' & H); [|apply elem_of_seq; lia].
  apply for_each_ret_inv with (i := x) in H as (s2 & s2' & H); [|apply elem_of_seq; lia].
  apply for_each_ret_inv with (i := y) in H as (s3 & s3' & H); [|apply elem_of_seq; lia].
  apply bind_ret_inv in H as (c & Hc & _).
  by apply bell_coefficient_ret_inv in Hc.
Qed.

(** With [m >= 1] rows in [joint_coe], [bell_inequality_max] reaches the
    solver exactly when both outcome
    vectors have two entries and the tables reach the [m] rows of
    [joint_coe]. With two outcomes per party and a table that is too short
    (fewer than [m] columns in [joint_coe], or fewer than [m] entries in
    [a_coe] or [b_coe]) an index leaves its array while the objective is
    accumulated: the function raises [IndexError] and the solver is not
    called. *)
Theorem bell_reaches_solver_iff (joint_coe : ndarray) (a_coe b_coe a_val b_val : list Q) :
  1 ≤ nrows joint_coe →
  ((∃ c κ, bell_inequality_max permutation_operator joint_coe a_coe b_coe a_val b_val
           = Solve c κ)
   ↔ length a_val = 2 ∧ length b_val = 2 ∧ bell_tables_cover joint_coe a_coe b_coe)
  ∧ (length a_val = 2 → length b_val = 2 →
     ncols joint_coe < nrows joint_coe ∨ length a_coe < nrows joint_coe
       ∨ length b_coe < nrows joint_coe →
     bell_inequality_max permutation_operator joint_coe a_coe b_coe a_val b_val
     = Raise IndexError).
Proof.
  intros _.
  assert (Hshort : length a_val = 2 → length b_val = 2 →
     ncols joint_coe < nrows joint_coe ∨ length a_coe < nrows joint_coe
       ∨ length b_coe < nrows joint_coe →
     bell_inequality_max permutation_operator joint_coe a_coe b_coe a_val b_val
     = Raise IndexError).
  { intros Hav Hbv Hs. unfold bell_inequality_max. rewrite Hav, Hbv.
    cbn [Nat.eqb negb orb].
    destruct (bell_objective_loop_ret_or_index joint_coe (reshape_col a_coe)
                (reshape_col b_coe) (reshape_col a_val) (reshape_col b_val)
                (nrows joint_coe)) as [[M HM]| ->]; [|done].
    exfalso. set (m := nrows joint_coe) in *.
    destruct Hs as [Hs|[Hs|Hs]].
    - destruct (bell_objective_loop_ret_inv _ _ _ _ _ _ _ 1 m HM) as (H1 & _ & _); lia.
    - destruct (bell_objective_loop_ret_inv _ _ _ _ _ _ _ m 1 HM) as (_ & H2 & _);
        [lia|lia|]. specialize (H2 eq_refl). simpl in H2. lia.
    - destruct (bell_objective_loop_ret_inv _ _ _ _ _ _ _ 1 m HM) as (_ & _ & H3);
        [lia|lia|]. specialize (H3 eq_refl). simpl in H3. lia. }
  split; [|done]. split.
  - intros (c & κ & Hrun).
    destruct (decide (length a_val = 2)) as [Hav|Hav]; cycle 1.
    { unfold bell_inequality_max in Hrun.
      destruct (Nat.eqb_spec (length a_val) 2); [done|]. discriminate. }
    destruct (decide (length b_val = 2)) as [Hbv|Hbv]; cycle 1.
    { unfold bell_inequality_max in Hrun.
      destruct (Nat.eqb_spec (length b_val) 2); [done|].
      rewrite orb_true_r in Hrun. discriminate. }
    split; [done|]. split; [done|]. unfold bell_tables_cover.
    destruct (decide (nrows joint_coe ≤ ncols joint_coe)); cycle 1.
    { rewrite Hshort in Hrun by (done || lia). discriminate. }
    destruct (decide (nrows joint_coe ≤ length a_coe)); cycle 1.
    { rewrite Hshort in Hrun by (done || lia). discriminate. }
    destruct (decide (nrows joint_coe ≤ length b_coe)); cycle 1.
    { rewrite Hshort in Hrun by (done || lia). discriminate. }
    done.
  - intros (Hav & Hbv & Hcover). rewrite bell_solve_cover by done. eauto.
Qed.


Lemma MN_matrix_solve_free (m a x : nat) :
  solve_free (MN_matrix permutation_operator m a x).
Proof.
  unfold MN_matrix.
  apply bind_solve_free; [apply list_setitem_solve_free|]. intros perm.
  apply bind_solve_free; [apply list_setitem_solve_free|]. intros perm'.
  apply np_add_solve_free.
Qed.

Lemma bell_objective_loop_solve_free (joint_coe a_coe b_coe a_val b_val : ndarray)
    (m : nat) :
  solve_free (bell_objective_loop permutation_operator joint_coe a_coe b_coe a_val b_val m).
Proof.
  unfold bell_objective_loop.
  do 4 (apply for_each_solve_free; intros ? ?).
  apply bind_solve_free; [apply bell_coefficient_solve_free|intros ?].
  apply bind_solve_free; [apply MN_matrix_solve_free|intros ?].
  apply bind_solve_free; [apply MN_matrix_solve_free|intros ?].
  apply np_add_solve_free.
Qed.

(** Whatever the input and whatever the solver answers,
    [bell_inequality_max] either raises without having called the solver,
    or calls it exactly once, with MOSEK on a problem whose constraints are
    those of the [m] rows of [joint_coe], and returns what that call left
    in [prob.value]: it never returns a value of its own, never calls the
    solver twice, and never raises after the call. *)
Theorem bell_single_call (slv : solver) (joint_coe : ndarray)
    (a_coe b_coe a_val b_val : list Q) :
  let r := run slv (bell_inequality_max permutation_operator joint_coe
                      a_coe b_coe a_val b_val) in
  (∃ e, r = (inl e, []))
  ∨ (∃ obj_mat,
       let c := {| call_problem :=
                     {| prob_objective :=
                          Maximize (ETrace (EMatMul (bell_Z (nrows joint_coe))
                                              (EArray obj_mat)));
                        prob_constraints := bell_constraints (nrows joint_coe) |};
                   call_solver := "MOSEK"; call_eps := None;
                   call_verbose := Some false |} in
       r = (inr (value (slv c)), [c])).
Proof.
  intros r. subst r. unfold bell_inequality_max.
  destruct (negb (length a_val =? 2) || negb (length b_val =? 2)); [left; by eexists|].
  pose proof (bell_objective_loop_solve_free joint_coe (reshape_col a_coe)
                (reshape_col b_coe) (reshape_col a_val) (reshape_col b_val)
                (nrows joint_coe)) as Hfree.
  destruct (bell_objective_loop _ _ _ _ _ _ _) as [M|e|c k]; [|left; by eexists|done].
  cbn [bind]. unfold symmetrize.
  pose proof (np_add_solve_free M (np_transpose M)) as Hfree'.
  destruct (np_add M (np_transpose M)) as [M'|e|c k]; [|left; by eexists|done].
  right. by eexists.
Qed.


(** With [m >= 1] rows in [joint_coe], two outcomes per party and tables
    that reach [m], the matrix of the objective handed to the solver has
    the dimension [2^(2m+2)] of the accumulated operator and is symmetric,
    entry by entry; the symmetrization leaves the diagonal of the
    accumulated operator unchanged (as rationals). *)
Theorem bell_objective_symmetric (joint_coe : ndarray) (a_coe b_coe a_val b_val : list Q) :
  1 ≤ nrows joint_coe →
  length a_val = 2 → length b_val = 2 →
  bell_tables_cover joint_coe a_coe b_coe →
  let m := nrows joint_coe in
  let tot_dim := 2 ^ (2 * m + 2) in
  ∃ M obj_mat,
    bell_objective_loop permutation_operator joint_coe (reshape_col a_coe)
      (reshape_col b_coe) (reshape_col a_val) (reshape_col b_val) m = Ret M
    ∧ bell_inequality_max permutation_operator joint_coe a_coe b_coe a_val b_val
      = Solve (bell_call
                 {| prob_objective :=
                      Maximize (ETrace (EMatMul (bell_Z m) (EArray obj_mat)));
                    prob_constraints := bell_constraints m |})
          (λ s, Ret (value s))
    ∧ shape obj_mat = (tot_dim, tot_dim) ∧ well_shaped obj_mat
    ∧ (∀ i j, i < tot_dim → j < tot_dim → get obj_mat i j = get obj_mat j i)
    ∧ (∀ i, i < tot_dim → (get obj_mat i i == get M i i)%Q).
Proof.
  intros _ Hav Hbv Hcover m tot_dim. subst m tot_dim.
  pose proof (bell_operator_shape permutation_operator joint_coe a_coe b_coe a_val b_val
                (nrows joint_coe)) as Hs.
  unfold shape in Hs.
  pose proof (f_equal fst Hs) as Hr. pose proof (f_equal snd Hs) as Hc.
  cbn [fst snd] in Hr, Hc.
  eexists _, _. split; [by apply bell_objective_loop_cover|].
  split; [by apply bell_solve_cover|].
  split; [unfold shape, symmetric_part, np_div, mat_add; cbn [nrows ncols tabulate];
          congruence|].
  split; [apply well_shaped_tabulate|]. split.
  - intros i j Hi Hj. apply symmetric_part_symmetric; congruence.
  - intros i Hi. rewrite get_symmetric_part by congruence. field.
Qed.

Lemma get_measurement_operator (m a x i j : nat) :
  i < 2 ^ (m + 1) → j < 2 ^ (m + 1) →
  let P := permutation_operator (repeat 2 (m + 1)) (exchange (m + 1) 0 x) false true in
  get (measurement_operator permutation_operator m a x) i j
  = (inject_Z (Z.of_nat a) * (if i =? j then 1 else 0)
     + inject_Z ((-1) ^ Z.of_nat a) * get P i j)%Q.
Proof.
  intros Hi Hj P. subst P. unfold measurement_operator.
  pose proof (permutation_operator_shape (repeat 2 (m + 1)) (exchange (m + 1) 0 x)
                false true) as Hs.
  rewrite dim_prod_repeat in Hs. injection Hs as Hr Hc.
  rewrite get_mat_add by done.
  rewrite (get_np_scale _ (np_eye (2 ^ (m + 1)))) by done.
  rewrite get_np_scale by lia.
  by rewrite get_np_eye by done.
Qed.

(** For every setting [x] in [0..m] the operators of the two outcomes are
    complementary: [MN_matrix(m, 0, x)] is the permutation operator itself
    and [MN_matrix(m, 0, x) + MN_matrix(m, 1, x)] is the identity (entries
    compared as rationals). *)
Theorem MN_matrix_outcomes_complete (m x : nat) :
  x ≤ m →
  let P := permutation_operator (repeat 2 (m + 1)) (exchange (m + 1) 0 x) false true in
  ∃ M0 M1,
    MN_matrix permutation_operator m 0 x = Ret M0
    ∧ MN_matrix permutation_operator m 1 x = Ret M1
    ∧ ∀ i j, i < 2 ^ (m + 1) → j < 2 ^ (m + 1) →
        (get M0 i j == get P i j)%Q
        ∧ (get M0 i j + get M1 i j == if i =? j then 1 else 0)%Q.
Proof.
  intros Hx P.
  exists (measurement_operator permutation_operator m 0 x),
         (measurement_operator permutation_operator m 1 x).
  split; [by apply MN_matrix_ret|]. split; [by apply MN_matrix_ret|].
  intros i j Hi Hj. rewrite !get_measurement_operator by done. cbv zeta. fold P.
  change (inject_Z (Z.of_nat 0)) with 0%Q. change (inject_Z ((-1) ^ Z.of_nat 0)) with 1%Q.
  change (inject_Z (Z.of_nat 1)) with 1%Q. change (inject_Z ((-1) ^ Z.of_nat 1)) with (-1)%Q.
  split; [ring|]. destruct (i =? j); ring.
Qed.

(** [MN_matrix(m, a, x)] returns a matrix exactly for a setting index
    [x <= m]; for a larger one the assignment [perm[x] = 0] leaves the list
    and the function raises [IndexError]. *)
Theorem MN_matrix_setting_bound (m a x : nat) :
  ((∃ MN, MN_matrix permutation_operator m a x = Ret MN) ↔ x ≤ m)
  ∧ (m < x → MN_matrix permutation_operator m a x = Raise IndexError).
Proof.
  assert (Hout : m < x → MN_matrix permutation_operator m a x = Raise IndexError).
  { intros Hx. unfold MN_matrix, list_setitem, range.
    rewrite Nat.sub_0_r, length_seq.
    assert ((0 <? m + 1) = true) as -> by (apply Nat.ltb_lt; lia).
    cbn [bind]. rewrite length_insert, length_seq.
    by assert ((x <? m + 1) = false) as -> by (apply Nat.ltb_ge; lia). }
  split; [|done]. split.
  - intros [MN HMN]. destruct (decide (x ≤ m)); [done|].
    rewrite Hout in HMN by lia. discriminate.
  - intros Hx. eexists. by apply MN_matrix_ret.
Qed.


End BellExtras.

(** ** [bell_inequality_max]: the number of constraints *)

Lemma length_combinations {A} (l : list A) (r : nat) :
  length (combinations l r) = choose (length l) r.
Proof.
  revert r. induction l as [|x l IH]; intros [|r]; simpl; try done.
  by rewrite length_app, length_map, !IH.
Qed.

(** The problem of [m] settings has [2 + Σ_{sz = 1..m} C(2m - 2, sz)]
    constraints: the trace condition, the positivity of [W], and one PPT
    constraint for each selection of [sz] of the [2m - 2] positions. *)
Theorem bell_constraint_count (m : nat) :
  length (bell_constraints m) = 2 + list_sum (map (choose (2 * m - 2)) (seq 1 m)).
Proof.
  rewrite bell_constraints_eq, length_app. cbn [length]. f_equal.
  unfold bell_ppt. rewrite length_flat_map. f_equal.
  apply map_ext. intros sz.
  by rewrite length_map, length_combinations, length_seq.
Qed.

(** 5 constraints for two settings, 16 for three (the documented I3322
    example), 58 for four. *)
Example bell_constraint_count_2_3_4 :
  length (bell_constraints 2) = 5 ∧ length (bell_constraints 3) = 16
  ∧ length (bell_constraints 4) = 58.
Proof. rewrite !bell_constraint_count. by vm_compute. Qed.

(** ** The further properties at concrete inputs *)

Lemma bell_ignores_extra_entries_witness :
  bell_inequality_max permutation_operator_model joint_coe_2x3
    (a_coe_2 ++ [7%Q]) (b_coe_2 ++ [9; 9]%Q) val_01 val_01
  = bell_inequality_max permutation_operator_model joint_coe_2
      a_coe_2 b_coe_2 val_01 val_01.
Proof.
  apply (bell_ignores_extra_entries permutation_operator_model
           permutation_operator_model_shape joint_coe_2x3 joint_coe_2
           (a_coe_2 ++ [7%Q]) a_coe_2 (b_coe_2 ++ [9; 9]%Q) b_coe_2 val_01 val_01);
    try reflexivity.
  - repeat split; simpl; lia.
  - repeat split; simpl; lia.
  - simpl; lia.
  - intros i k Hi Hk. simpl in Hi, Hk.
    destruct i as [|[|i]]; [| |lia]; (destruct k as [|[|k]]; [reflexivity|reflexivity|lia]).
  - intros i Hi. simpl in Hi. destruct i as [|[|i]]; [reflexivity|reflexivity|lia].
  - intros i Hi. simpl in Hi. destruct i as [|[|i]]; [reflexivity|reflexivity|lia].
Defined.

Lemma bell_reaches_solver_iff_witness :
  bell_inequality_max permutation_operator_model joint_coe_2
    [1%Q] b_coe_2 val_01 val_01
  = Raise IndexError.
Proof.
  apply (bell_reaches_solver_iff permutation_operator_model
           permutation_operator_model_shape joint_coe_2 [1%Q] b_coe_2 val_01 val_01);
    [simpl; lia|reflexivity|reflexivity|].
  right. left. simpl. lia.
Defined.

Lemma bell_objective_symmetric_witness :
  ∃ obj_mat,
    bell_inequality_max permutation_operator_model joint_coe_2
      a_coe_2 b_coe_2 val_01 val_01
    = Solve (bell_call
               {| prob_objective := Maximize (ETrace (EMatMul (bell_Z 2) (EArray obj_mat)));
                  prob_constraints := bell_constraints 2 |})
        (λ s, Ret (value s))
    ∧ shape obj_mat = (64, 64).
Proof.
  destruct (bell_objective_symmetric permutation_operator_model
              permutation_operator_model_shape joint_coe_2
              a_coe_2 b_coe_2 val_01 val_01)
    as (M & obj_mat & _ & H1 & H2 & _).
  - simpl; lia.
  - reflexivity.
  - reflexivity.
  - repeat split; simpl; lia.
  - exists obj_mat. split; [exact H1|exact H2].
Defined.

Lemma MN_matrix_outcomes_complete_witness :
  ∃ M0 M1,
    MN_matrix permutation_operator_model 1 0 1 = Ret M0
    ∧ MN_matrix permutation_operator_model 1 1 1 = Ret M1
    ∧ (get M0 1 2 + get M1 1 2 == 0)%Q ∧ (get M0 2 2 + get M1 2 2 == 1)%Q.
Proof.
  destruct (MN_matrix_outcomes_complete permutation_operator_model
              permutation_operator_model_shape 1 1) as (M0 & M1 & H0 & H1 & Hsum); [lia|].
  exists M0, M1. split; [exact H0|]. split; [exact H1|]. split.
  - apply (Hsum 1 2); simpl; lia.
  - apply (Hsum 2 2); simpl; lia.
Defined.

Lemma MN_matrix_setting_bound_witness :
  MN_matrix permutation_operator_model 1 1 2 = Raise IndexError.
Proof.
  apply (MN_matrix_setting_bound permutation_operator_model
           permutation_operator_model_shape 1 1 2). lia.
Defined.

(** ** The entries of the objective operator *)




(** ** Integer entries *)













(** ** The objective operator, entry by entry *)

Section BellObjective.

Variable permutation_operator : list nat → list nat → bool → bool → ndarray.

(** The permutation operator acts on the full tensor space, and it is a 0/1
    matrix. *)
Hypothesis permutation_operator_shape : ∀ dims perm inv_perm is_sparse,
  shape (permutation_operator dims perm inv_perm is_sparse)
  = (dim_prod dims, dim_prod dims).

Hypothesis permutation_operator_entries : ∀ dims perm inv_perm is_sparse i j,
  get (permutation_operator dims perm inv_perm is_sparse) i j = 0%Q
  ∨ get (permutation_operator dims perm inv_perm is_sparse) i j = 1%Q.



End BellObjective.



(** Entries of the sum for the two-settings example. *)
Example bell_entry_sum_2 :
  map (λ '(i1, i2, j1, j2),
         bell_entry_sum permutation_operator_model joint_coe_2 a_coe_2 b_coe_2
           val_01 val_01 2 i1 i2 j1 j2)
    [(1, 2, 1, 2); (3, 3, 3, 3); (1, 4, 4, 1); (1, 2, 2, 1)]
  = [-1; 2; -1; 0]%Q.
Proof. by vm_compute. Qed.

